(** * India electricity plan: the investment linear program and its report

    A shallow embedding of [india-electricity-plan/model_gurobi.py].

    The script reads three tables, builds one linear program through the
    gurobipy interface (variables, objective, constraints), asks the solver
    for an optimum and prints a report from the solved values.

    Conventions of the embedding.
    - Numbers.  The script computes with Python numbers; they are embedded
      as exact rationals [Q].  Equalities between computed quantities are
      stated with [==] ([Qeq]), so every statement below is about the
      arithmetic the script writes down, not about binary64 rounding.
    - Tables.  A pandas data frame is the list of its rows, in file order;
      every cell is present and numeric (the row types below).
    - Dictionaries are [gmap string _]; [dict(zip(ks, vs))] and the dict
      comprehension insert from left to right, so a later row with the same
      key replaces an earlier one.
    - Exceptions.  A subscript on a missing key raises [KeyError]; dividing a
      gurobipy variable or a number by zero raises [ZeroDivisionError];
      [Model.addVars] on index lists that repeat a key raises
      [KeyError('Duplicate keys in Model.addVars()')] and adds no variable.
      The script catches nothing, so an exception ends the run.
    - The gurobipy model is the state threaded through the construction: the
      variables, the objective and the constraints added so far.
    - The solver is external: [optimize] is a parameter of [main].
    - Calls to [log] write to the logging stream and are not part of the
      printed report; they are left out. *)

From Stdlib Require Import QArith Lqa.
From stdpp Require Import gmap strings list pretty.

Local Open Scope Q_scope.

(** ** Input tables *)

(** A row of [indian_electricity_sources_with_emissions.csv]. *)
Record EmissionsRow := {
  Source : string;
  Capital_Cost : Q;          (* "Capital Cost (₹/MW)" *)
  Current_Production : Q;    (* "Current Production (MW)" *)
  Emission_Factor : Q        (* "Emission Factor (kg CO2/kWh)" *)
}.

(** A row of [potential_energy_plants_india.csv]. *)
Record PlantsRow := {
  Plant_Source : string;
  Max_Plants : Q;
  Min_Plants : Q
}.

(** A row of [final_government_goals_2030_with_percent.csv]. *)
Record GoalRow := {
  Goal : string;
  Target_Value : Q
}.

Record Tables := {
  emissions_data : list EmissionsRow;
  potential_plants_data : list PlantsRow;
  goals_data : list GoalRow
}.

(** ** Exceptions and the two monads of the script *)

Inductive Key :=
| KStr (s : string)
| KInt (y : Z)
| KPair (s : string) (y : Z)
| KMsg (msg : string).

Inductive Exn :=
| KeyError (k : Key)
| ZeroDivisionError.

(** A Python expression: a value or an exception. *)
Definition result := sum Exn.

#[global] Instance result_ret : MRet result := λ A a, inr a.
#[global] Instance result_bind : MBind result :=
  λ A B f m, match m with inl e => inl e | inr a => f a end.

Definition raise {A} (e : Exn) : result A := inl e.

(** [d[k]] *)
Definition getitem {A} (d : gmap string A) (k : string) : result A :=
  match d !! k with
  | Some v => inr v
  | None => raise (KeyError (KStr k))
  end.

(** [dict(zip(ks, vs))] *)
Definition dict_zip {A} (ks : list string) (vs : list A) : gmap string A :=
  foldl (λ d kv, <[kv.1 := kv.2]> d) ∅ (zip ks vs).

(** [sum(...)] over numbers: starts at 0 and adds from the left. *)
Definition pysum (l : list Q) : Q := foldl Qplus 0 l.

(** [x / c] on numbers. *)
Definition pydiv (x c : Q) : result Q :=
  if Qeq_bool c 0 then raise ZeroDivisionError else inr (x / c).

(** [x > y] on numbers. *)
Definition Qgtb (x y : Q) : bool := negb (Qle_bool x y).

(** ** gurobipy: variables, linear expressions, constraints, model *)

(** The variables of the model, by the [name=] they are created with. *)
Inductive Var :=
| Investment (s : string) (y : Z)
| Slack_Target (s : string)
| Slack_Min_Budget (y : Z)
| Slack_Max_Budget (y : Z)
| Slack_Renewable_Capacity
| Slack_Renewable_Production
| Slack_Emissions.

(** A [LinExpr]: coefficient-variable terms in the order they were added,
    and a constant. *)
Record LinExpr := {
  terms : list (Q * Var);
  const : Q
}.

Definition of_var (v : Var) : LinExpr := {| terms := [(1, v)]; const := 0 |}.
Definition of_const (c : Q) : LinExpr := {| terms := []; const := c |}.

(** [e1 + e2] *)
Definition ladd (e1 e2 : LinExpr) : LinExpr :=
  {| terms := terms e1 ++ terms e2; const := const e1 + const e2 |}.

(** [c * e] and [e * c] *)
Definition lscale (c : Q) (e : LinExpr) : LinExpr :=
  {| terms := map (λ kv, (c * kv.1, kv.2)) (terms e); const := c * const e |}.

(** [e / c]: gurobipy multiplies by [1.0 / c], which raises on zero. *)
Definition ldiv (e : LinExpr) (c : Q) : result LinExpr :=
  k ← pydiv 1 c; mret (lscale k e).

(** [gp.quicksum(es)] *)
Definition quicksum (es : list LinExpr) : LinExpr := foldl ladd (of_const 0) es.

(** The value of an expression under an assignment of the variables. *)
Definition eval (X : Var → Q) (e : LinExpr) : Q :=
  const e + foldr (λ kv acc, kv.1 * X kv.2 + acc) 0 (terms e).

Inductive Sense := GE | LE.

(** A constraint [lhs >= rhs] or [lhs <= rhs] with its name. *)
Record Constr := {
  cname : string;
  lhs : LinExpr;
  sense : Sense;
  rhs : LinExpr
}.

Definition holds (X : Var → Q) (c : Constr) : Prop :=
  match sense c with
  | GE => eval X (rhs c) <= eval X (lhs c)
  | LE => eval X (lhs c) <= eval X (rhs c)
  end.

(** The gurobipy model object.  Every variable is created with [lb=0.0] and
    no upper bound. *)
Record Model := {
  vars : list Var;
  objective : LinExpr;
  constrs : list Constr
}.

Definition empty_model : Model :=
  {| vars := []; objective := of_const 0; constrs := [] |}.

(** Model construction: the model built so far is threaded through, and an
    exception leaves it as it was when the exception was raised. *)
Definition Build (A : Type) := Model → Model * result A.

#[global] Instance Build_ret : MRet Build := λ A a m, (m, inr a).
#[global] Instance Build_bind : MBind Build :=
  λ A B f c m,
    match c m with
    | (m', inl e) => (m', inl e)
    | (m', inr a) => f a m'
    end.

(** Evaluate a Python expression inside the construction. *)
Definition py {A} (r : result A) : Build A := λ m, (m, r).

(** The message of the [KeyError] that [Model.addVars] raises. *)
Definition duplicate_keys : Exn :=
  KeyError (KMsg "Duplicate keys in Model.addVars()").

(** [model.addVars(keys, ...)]: one variable per key; index lists that
    repeat a key raise, and the model is left as it was. *)
Definition addVars {K} `{EqDecision K} (keys : list K) (mk : K → Var) : Build unit :=
  λ m, if decide (NoDup keys)
       then ({| vars := vars m ++ map mk keys; objective := objective m;
                constrs := constrs m |}, inr tt)
       else (m, inl duplicate_keys).

(** [model.addVar(...)] *)
Definition addVar (v : Var) : Build unit :=
  λ m, ({| vars := vars m ++ [v]; objective := objective m; constrs := constrs m |},
        inr tt).

Definition setObjective (e : LinExpr) : Build unit :=
  λ m, ({| vars := vars m; objective := e; constrs := constrs m |}, inr tt).

Definition addConstr (c : Constr) : Build unit :=
  λ m, ({| vars := vars m; objective := objective m; constrs := constrs m ++ [c] |}, inr tt).

(** [for x in l: body x] *)
Fixpoint for_ {A} (l : list A) (body : A → Build unit) : Build unit :=
  match l with
  | [] => mret tt
  | x :: l' => _ ← body x; for_ l' body
  end.

(** A [tupledict] of variables: [d[k]] raises [KeyError] off its keys. *)
Definition tupledict_get {K} `{EqDecision K} (keys : list K) (mk : K → Var)
    (err : K → Key) (k : K) : result Var :=
  if decide (k ∈ keys) then inr (mk k) else raise (KeyError (err k)).

(** ** Fixed tables of the script *)

Definition years : list Z := seqZ 2024 7.     (* list(range(2024, 2031)) *)

Definition capacity_factors : gmap string Q :=
  list_to_map [("Solar", 0.2); ("Wind", 0.3); ("Hydropower", 0.4); ("Biomass", 0.7);
               ("Nuclear", 0.9); ("Coal", 0.8); ("Natural Gas", 0.5)].

Definition goal_mappings : gmap string string :=
  list_to_map [("Coal Capacity (GW)", "Coal");
               ("Natural Gas Capacity (GW)", "Natural Gas");
               ("Nuclear Capacity (GW)", "Nuclear");
               ("Solar Capacity (GW)", "Solar");
               ("Wind Capacity (GW)", "Wind");
               ("Hydropower Capacity (GW)", "Hydropower");
               ("Biomass Capacity (GW)", "Biomass")].

Definition renewable_sources : list string := ["Solar"; "Wind"; "Hydropower"; "Biomass"].

Definition penalty_factor : Q := 1.1.

Definition total_investment_budget : Q := 44 * 10e11.
Definition average_annual_investment : Q :=
  total_investment_budget / inject_Z (Z.of_nat (length years)).
Definition min_annual_budget : Q := 0.8 * average_annual_investment.
Definition max_annual_budget : Q := 1.2 * average_annual_investment.

(** The three targets the construction computes and the report reads
    again: [total_renewable_capacity_target],
    [total_renewable_production_target] and [total_emission_target]. *)
Record Targets := {
  capacity_target : Q;
  production_target : Q;
  emission_target : Q
}.

(** ** The script, top to bottom *)

Section Script.
Context (t : Tables).

Definition sources : list string := map Source (emissions_data t).

Definition capital_cost : gmap string Q :=
  dict_zip sources (map Capital_Cost (emissions_data t)).
Definition current_capacity : gmap string Q :=
  dict_zip sources (map Current_Production (emissions_data t)).
Definition emission_factors : gmap string Q :=
  dict_zip sources (map Emission_Factor (emissions_data t)).

(** The dict comprehension over the goal rows: a row whose label is not a
    key of [goal_mappings] is skipped. *)
Definition target_capacity : gmap string Q :=
  foldl (λ d row,
           match goal_mappings !! Goal row with
           | Some s => <[s := Target_Value row * 1000]> d
           | None => d
           end) ∅ (goals_data t).

Definition max_plants : gmap string Q :=
  dict_zip (map Plant_Source (potential_plants_data t))
           (map Max_Plants (potential_plants_data t)).
Definition min_plants : gmap string Q :=
  dict_zip (map Plant_Source (potential_plants_data t))
           (map Min_Plants (potential_plants_data t)).

Definition filtered_sources : list string :=
  filter (λ source, is_Some (target_capacity !! source)) sources.

(** *** Variables *)

Definition investment_keys : list (string * Z) := list_prod filtered_sources years.

(** [investment[s, y]] *)
Definition investment (s : string) (y : Z) : result Var :=
  tupledict_get investment_keys (λ k, Investment k.1 k.2) (λ k, KPair k.1 k.2) (s, y).
(** [slack_target[s]], [slack_min_budget[y]], [slack_max_budget[y]] *)
Definition slack_target (s : string) : result Var :=
  tupledict_get filtered_sources Slack_Target KStr s.
Definition slack_min_budget (y : Z) : result Var :=
  tupledict_get years Slack_Min_Budget KInt y.
Definition slack_max_budget (y : Z) : result Var :=
  tupledict_get years Slack_Max_Budget KInt y.

(** [investment.sum(source, '*')] and [investment.sum('*', year)] *)
Definition investment_sum_source (source : string) : LinExpr :=
  quicksum (map (λ k, of_var (Investment k.1 k.2))
                (filter (λ k, k.1 = source) investment_keys)).
Definition investment_sum_year (year : Z) : LinExpr :=
  quicksum (map (λ k, of_var (Investment k.1 k.2))
                (filter (λ k, k.2 = year) investment_keys)).

(** The variables in the order they are created, when no [addVars] call
    raises. *)
Definition all_vars : list Var :=
  map (λ k, Investment k.1 k.2) investment_keys
  ++ map Slack_Target filtered_sources
  ++ map Slack_Min_Budget years
  ++ map Slack_Max_Budget years
  ++ [Slack_Renewable_Capacity; Slack_Renewable_Production; Slack_Emissions].

(** *** Objective *)

Definition objective_expr : result LinExpr :=
  inv ← mapM (λ k, v ← investment k.1 k.2; mret (of_var v))
             (list_prod filtered_sources years);
  st ← mapM (λ s, v ← slack_target s; mret (of_var v)) filtered_sources;
  sb ← mapM (λ y, a ← slack_min_budget y; b ← slack_max_budget y;
                  mret (ladd (of_var a) (of_var b))) years;
  mret (ladd (quicksum inv)
             (lscale penalty_factor
                (ladd (ladd (ladd (ladd (quicksum st) (quicksum sb))
                                  (of_var Slack_Renewable_Capacity))
                            (of_var Slack_Renewable_Production))
                      (of_var Slack_Emissions)))).

(** *** Target constraints (one per filtered source) *)

Definition total_target_cost (source : string) : result Q :=
  tc ← getitem target_capacity source;
  cur ← getitem current_capacity source;
  cc ← getitem capital_cost source;
  mret ((tc - cur) * cc).

Definition target_constr (source : string) : result Constr :=
  cost ← total_target_cost source;
  st ← slack_target source;
  mret {| cname := "Target_" +:+ source;
          lhs := ladd (investment_sum_source source) (of_var st);
          sense := GE;
          rhs := of_const cost |}.

(** *** Budget constraints (two per year) *)

Definition min_budget_constr (year : Z) : result Constr :=
  sl ← slack_min_budget year;
  mret {| cname := "Min_Budget_" +:+ pretty year;
          lhs := ladd (investment_sum_year year) (of_var sl);
          sense := GE;
          rhs := of_const min_annual_budget |}.

Definition max_budget_constr (year : Z) : result Constr :=
  sl ← slack_max_budget year;
  mret {| cname := "Max_Budget_" +:+ pretty year;
          lhs := investment_sum_year year;
          sense := LE;
          rhs := ladd (of_const max_annual_budget) (of_var sl) |}.

(** *** Renewable targets and constraints *)

Definition total_renewable_capacity_target : result Q :=
  l ← mapM (getitem target_capacity) renewable_sources;
  mret (pysum l).

Definition total_renewable_production_target : result Q :=
  l ← mapM (λ source,
              tc ← getitem target_capacity source;
              cur ← getitem current_capacity source;
              cf ← getitem capacity_factors source;
              mret ((tc - cur) * cf * 8760 / 1e6)) renewable_sources;
  mret (pysum l).

Definition renewable_capacity_constr (target : Q) : result Constr :=
  l ← mapM (λ k,
              v ← investment k.1 k.2;
              cc ← getitem capital_cost k.1;
              ldiv (of_var v) cc) (list_prod renewable_sources years);
  mret {| cname := "Renewable_Capacity";
          lhs := ladd (quicksum l) (of_var Slack_Renewable_Capacity);
          sense := GE;
          rhs := of_const target |}.

Definition renewable_production_constr (target : Q) : result Constr :=
  l ← mapM (λ k,
              v ← investment k.1 k.2;
              cc ← getitem capital_cost k.1;
              e ← ldiv (of_var v) cc;
              cf ← getitem capacity_factors k.1;
              mret (lscale 8760 (lscale cf e))) (list_prod renewable_sources years);
  mret {| cname := "Renewable_Production";
          lhs := ladd (quicksum l) (of_var Slack_Renewable_Production);
          sense := GE;
          rhs := of_const (target * 1e6) |}.

(** *** Emissions target and constraint *)

Definition total_emission_target (prod_target : Q) : result Q :=
  l ← mapM (λ source,
              ef ← getitem emission_factors source;
              tc ← getitem target_capacity source;
              cur ← getitem current_capacity source;
              cf ← getitem capacity_factors source;
              mret (ef * (tc - cur) * cf * 8760 / 1e3)) filtered_sources;
  mret (0.43 * prod_target * 1e6 + pysum l).

Definition emissions_lhs : result LinExpr :=
  l ← mapM (λ k,
              v ← investment k.1 k.2;
              cc ← getitem capital_cost k.1;
              e ← ldiv (of_var v) cc;
              ef ← getitem emission_factors k.1;
              mret (lscale ef e)) (list_prod filtered_sources years);
  mret (quicksum l).

Definition emissions_constr (target : Q) : result Constr :=
  e ← emissions_lhs;
  mret {| cname := "Emissions";
          lhs := e;
          sense := LE;
          rhs := ladd (of_const target) (of_var Slack_Emissions) |}.

(** *** Model construction, in the order of the script *)

Definition add_variables : Build unit :=
  _ ← addVars investment_keys (λ k, Investment k.1 k.2);
  _ ← addVars filtered_sources Slack_Target;
  _ ← addVars years Slack_Min_Budget;
  _ ← addVars years Slack_Max_Budget;
  _ ← addVar Slack_Renewable_Capacity;
  _ ← addVar Slack_Renewable_Production;
  addVar Slack_Emissions.

Definition set_objective : Build unit :=
  obj ← py objective_expr; setObjective obj.

Definition add_target_constraints : Build unit :=
  for_ filtered_sources (λ source, c ← py (target_constr source); addConstr c).

Definition add_budget_constraints : Build unit :=
  for_ years (λ year,
    c ← py (min_budget_constr year);
    _ ← addConstr c;
    c' ← py (max_budget_constr year);
    addConstr c').

(** Returns the capacity target and the production target. *)
Definition add_renewable_constraints : Build (Q * Q) :=
  cap_target ← py total_renewable_capacity_target;
  prod_target ← py total_renewable_production_target;
  c ← py (renewable_capacity_constr cap_target);
  _ ← addConstr c;
  c ← py (renewable_production_constr prod_target);
  _ ← addConstr c;
  mret (cap_target, prod_target).

(** Returns the emission target. *)
Definition add_emissions_constraint (prod_target : Q) : Build Q :=
  em_target ← py (total_emission_target prod_target);
  c ← py (emissions_constr em_target);
  _ ← addConstr c;
  mret em_target.

Definition build : Build Targets :=
  _ ← add_variables;
  _ ← set_objective;
  _ ← add_target_constraints;
  _ ← add_budget_constraints;
  ren ← add_renewable_constraints;
  em_target ← add_emissions_constraint ren.2;
  mret {| capacity_target := ren.1;
          production_target := ren.2;
          emission_target := em_target |}.

End Script.

(** ** The report *)

(** [format_inr]: the number that is printed with two decimals, and its
    unit. *)
Inductive INR :=
| Lakh_Crore (amount : Q)
| Crore (amount : Q).

Definition format_inr (amount : Q) : INR :=
  if Qle_bool 1e5 amount then Lakh_Crore (amount / 1e5) else Crore amount.

(** The printed lines, each with the values its format string interpolates. *)
Inductive Line :=
| Banner
| Total_Investment (a : INR)
| Heading_Breakdown
| Source_Total (source : string) (a : INR)
| Source_Year (year : Z) (a : INR)
| Target_Shortfall (source : string) (a : INR)
| Heading_Budget
| Year_Total (year : Z) (a : INR)
| Min_Budget_Shortfall (a : INR)
| Max_Budget_Exceeded (a : INR)
| Heading_Renewable
| Capacity_Achieved (achieved target : Q)
| Capacity_Shortfall (mw : Q)
| Production_Achieved (achieved target : Q)
| Production_Shortfall (bu : Q)
| Heading_Emissions
| Total_Emissions (produced target : Q)
| Emissions_Exceed (excess : Q)
| Emissions_Below (margin : Q)
| Key_Insights.

Section Report.
Context (t : Tables) (tg : Targets).
(** [v.X]: the solved value of a variable. *)
Context (X : Var → Q).

Definition total_investment_made : result Q :=
  l ← mapM (λ k, v ← investment t k.1 k.2; mret (X v))
           (list_prod (filtered_sources t) years);
  mret (pysum l).

Definition source_investment (source : string) : result Q :=
  l ← mapM (λ y, v ← investment t source y; mret (X v)) years;
  mret (pysum l).

(** The lines of one year under a source's total. *)
Definition source_year_lines (source : string) (year : Z) : result (list Line) :=
  v ← investment t source year;
  mret (if Qgtb (X v) 0.5 then [Source_Year year (format_inr (X v / 1e7))] else []).

(** The body of the loop over the sources. *)
Definition source_lines (source : string) : result (list Line) :=
  total ← source_investment source;
  shown ← (if Qgtb total 0
           then ys ← mapM (source_year_lines source) years;
                mret (Source_Total source (format_inr (total / 1e7)) :: concat ys)
           else mret []);
  st ← slack_target t source;
  mret (shown ++
        (if Qgtb (X st) 0.5
         then [Target_Shortfall source (format_inr (X st / 1e7))] else [])).

(** The body of the loop over the years. *)
Definition year_lines (year : Z) : result (list Line) :=
  l ← mapM (λ s, v ← investment t s year; mret (X v)) (filtered_sources t);
  let total_year_investment := pysum l in
  lo ← slack_min_budget year;
  hi ← slack_max_budget year;
  mret (Year_Total year (format_inr (total_year_investment / 1e7))
        :: (if Qgtb (X lo) 0.5
            then [Min_Budget_Shortfall (format_inr (X lo / 1e7))] else [])
        ++ (if Qgtb (X hi) 0.5
            then [Max_Budget_Exceeded (format_inr (X hi / 1e7))] else [])).

Definition renewable_capacity_achieved : result Q :=
  l ← mapM (λ k,
              v ← investment t k.1 k.2;
              cc ← getitem (capital_cost t) k.1;
              pydiv (X v) cc) (list_prod renewable_sources years);
  mret (pysum l).

Definition renewable_production_achieved : result Q :=
  l ← mapM (λ k,
              v ← investment t k.1 k.2;
              cc ← getitem (capital_cost t) k.1;
              q ← pydiv (X v) cc;
              cf ← getitem capacity_factors k.1;
              mret (q * cf * 8760 / 1e6)) (list_prod renewable_sources years);
  mret (pysum l).

Definition renewable_lines : result (list Line) :=
  cap ← renewable_capacity_achieved;
  prod ← renewable_production_achieved;
  mret (Capacity_Achieved cap (capacity_target tg)
        :: (if Qgtb (X Slack_Renewable_Capacity) 0.5
            then [Capacity_Shortfall (X Slack_Renewable_Capacity)] else [])
        ++ Production_Achieved prod (production_target tg)
        :: (if Qgtb (X Slack_Renewable_Production) 0.5
            then [Production_Shortfall (X Slack_Renewable_Production / 1e6)] else [])).

Definition emissions_produced : result Q :=
  l ← mapM (λ k,
              v ← investment t k.1 k.2;
              cc ← getitem (capital_cost t) k.1;
              q ← pydiv (X v) cc;
              ef ← getitem (emission_factors t) k.1;
              mret (q * ef * 8760)) (list_prod (filtered_sources t) years);
  mret (pysum l).

Definition emissions_lines : result (list Line) :=
  produced ← emissions_produced;
  mret [Total_Emissions produced (emission_target tg);
        if Qgtb produced (emission_target tg)
        then Emissions_Exceed (produced - emission_target tg)
        else Emissions_Below (emission_target tg - produced)].

(** Everything printed on the [GRB.OPTIMAL] branch. *)
Definition report : result (list Line) :=
  total ← total_investment_made;
  by_source ← mapM source_lines (filtered_sources t);
  by_year ← mapM year_lines years;
  ren ← renewable_lines;
  em ← emissions_lines;
  mret ([Banner; Total_Investment (format_inr (total / 1e7)); Heading_Breakdown]
        ++ concat by_source
        ++ Heading_Budget :: concat by_year
        ++ Heading_Renewable :: ren
        ++ Heading_Emissions :: em
        ++ [Key_Insights]).

End Report.

(** ** The whole run *)

(** [model.status] after [model.optimize()]. *)
Inductive Status :=
| OPTIMAL
| NOT_OPTIMAL (code : Z).

Inductive Outcome :=
| Uncaught (m : Model) (e : Exn)      (* the run ends in a traceback *)
| Unsolved (code : Z)                 (* only the status is logged *)
| Printed (lines : list Line).

Definition main (optimize : Model → Status * (Var → Q)) (t : Tables) : Outcome :=
  match build t empty_model with
  | (m, inl e) => Uncaught m e
  | (m, inr tg) =>
      match optimize m with
      | (OPTIMAL, X) =>
          match report t tg X with
          | inl e => Uncaught m e
          | inr lines => Printed lines
          end
      | (NOT_OPTIMAL code, _) => Unsolved code
      end
  end.

(** ** The linear program of a model *)

(** An assignment is feasible when every variable of the model respects its
    lower bound 0 and every constraint holds. *)
Definition feasible (m : Model) (X : Var → Q) : Prop :=
  Forall (λ v, 0 <= X v) (vars m) ∧ Forall (holds X) (constrs m).

(** A minimum-cost feasible assignment. *)
Definition optimal (m : Model) (X : Var → Q) : Prop :=
  feasible m X ∧ ∀ Y, feasible m Y → eval X (objective m) <= eval Y (objective m).


(** ** Quantities named in the statements *)

(** One step of building a dictionary from rows: a row with a key inserts
    its value, replacing an earlier one. *)
Definition insert_row {R A} (key : R → option string) (val : R → A)
    (d : gmap string A) (r : R) : gmap string A :=
  match key r with
  | Some k => <[k := val r]> d
  | None => d
  end.

(** The sum of [f x] for [x] in [l]. *)
Definition Qsum {A} (f : A → Q) (l : list A) : Q := foldr (λ x acc, f x + acc) 0 l.

(** The per-source parameters, read where the entry exists. *)
Definition capitalCost (t : Tables) (s : string) : Q := default 0 (capital_cost t !! s).
Definition currentCapacity (t : Tables) (s : string) : Q := default 0 (current_capacity t !! s).
Definition emissionFactor (t : Tables) (s : string) : Q := default 0 (emission_factors t !! s).
Definition targetCapacity (t : Tables) (s : string) : Q := default 0 (target_capacity t !! s).
Definition capacityFactor (s : string) : Q := default 0 (capacity_factors !! s).

(** The model with further constraints appended. *)
Definition add_constrs (cs : list Constr) (m : Model) : Model :=
  {| vars := vars m; objective := objective m; constrs := constrs m ++ cs |}.

(** The objective and the constraints of the script, written with the
    parameters above. *)
Section Program.
Context (t : Tables).

Definition objective_function : LinExpr :=
  ladd (quicksum (map (λ k, of_var (Investment k.1 k.2))
                      (list_prod (filtered_sources t) years)))
       (lscale penalty_factor
          (ladd (ladd (ladd (ladd
             (quicksum (map (λ s, of_var (Slack_Target s)) (filtered_sources t)))
             (quicksum (map (λ y, ladd (of_var (Slack_Min_Budget y))
                                       (of_var (Slack_Max_Budget y))) years)))
             (of_var Slack_Renewable_Capacity))
             (of_var Slack_Renewable_Production))
             (of_var Slack_Emissions))).

Definition Target_constraint (s : string) : Constr :=
  {| cname := "Target_" +:+ s;
     lhs := ladd (investment_sum_source t s) (of_var (Slack_Target s));
     sense := GE;
     rhs := of_const ((targetCapacity t s - currentCapacity t s) * capitalCost t s) |}.

Definition Min_Budget_constraint (y : Z) : Constr :=
  {| cname := "Min_Budget_" +:+ pretty y;
     lhs := ladd (investment_sum_year t y) (of_var (Slack_Min_Budget y));
     sense := GE;
     rhs := of_const min_annual_budget |}.

Definition Max_Budget_constraint (y : Z) : Constr :=
  {| cname := "Max_Budget_" +:+ pretty y;
     lhs := investment_sum_year t y;
     sense := LE;
     rhs := ladd (of_const max_annual_budget) (of_var (Slack_Max_Budget y)) |}.

Definition target_constraints : list Constr :=
  map Target_constraint (filtered_sources t).

Definition budget_constraints : list Constr :=
  flat_map (λ y, [Min_Budget_constraint y; Max_Budget_constraint y]) years.

Definition renewable_capacity_target : Q :=
  pysum (map (targetCapacity t) renewable_sources).

Definition renewable_production_target : Q :=
  pysum (map (λ s, (targetCapacity t s - currentCapacity t s)
                   * capacityFactor s * 8760 / 1e6) renewable_sources).

Definition emissions_target : Q :=
  0.43 * renewable_production_target * 1e6
  + pysum (map (λ s, emissionFactor t s * (targetCapacity t s - currentCapacity t s)
                     * capacityFactor s * 8760 / 1e3) (filtered_sources t)).

Definition Renewable_Capacity_constraint : Constr :=
  {| cname := "Renewable_Capacity";
     lhs := ladd (quicksum (map (λ k, lscale (1 / capitalCost t k.1)
                                        (of_var (Investment k.1 k.2)))
                                (list_prod renewable_sources years)))
                 (of_var Slack_Renewable_Capacity);
     sense := GE;
     rhs := of_const renewable_capacity_target |}.

Definition Renewable_Production_constraint : Constr :=
  {| cname := "Renewable_Production";
     lhs := ladd (quicksum (map (λ k, lscale 8760 (lscale (capacityFactor k.1)
                                        (lscale (1 / capitalCost t k.1)
                                           (of_var (Investment k.1 k.2)))))
                                (list_prod renewable_sources years)))
                 (of_var Slack_Renewable_Production);
     sense := GE;
     rhs := of_const (renewable_production_target * 1e6) |}.

Definition Emissions_constraint : Constr :=
  {| cname := "Emissions";
     lhs := quicksum (map (λ k, lscale (emissionFactor t k.1)
                                  (lscale (1 / capitalCost t k.1)
                                     (of_var (Investment k.1 k.2))))
                          (list_prod (filtered_sources t) years));
     sense := LE;
     rhs := ladd (of_const emissions_target) (of_var Slack_Emissions) |}.

(** All four renewable sources have a goal row and a cost row. *)
Definition renewables_present : Prop :=
  ∀ r, r ∈ renewable_sources → is_Some (target_capacity t !! r) ∧ r ∈ sources t.

(** The model the script hands to the solver when nothing raises. *)
Definition full_model : Model :=
  {| vars := all_vars t;
     objective := objective_function;
     constrs := target_constraints ++ budget_constraints
                ++ [Renewable_Capacity_constraint; Renewable_Production_constraint]
                ++ [Emissions_constraint] |}.

Definition full_targets : Targets :=
  {| capacity_target := renewable_capacity_target;
     production_target := renewable_production_target;
     emission_target := emissions_target |}.

End Program.

(** The model once the target and budget constraints have been added. *)
Definition model_after_budgets (t : Tables) : Model :=
  {| vars := all_vars t;
     objective := objective_function t;
     constrs := target_constraints t ++ budget_constraints t |}.

(** A [KeyError] on the name of a renewable source. *)
Definition renewable_key_error (e : Exn) : Prop :=
  ∃ r, r ∈ renewable_sources ∧ e = KeyError (KStr r).

(** The capital cost of every filtered source is non-zero. *)
Definition costs_nonzero (t : Tables) : Prop :=
  ∀ s, s ∈ filtered_sources t → ¬ capitalCost t s == 0.

(** ** The report, block by block

    What each part of the report prints when no subscript and no division
    raises. *)

Section Blocks.
Context (t : Tables) (tg : Targets) (X : Var → Q).

Definition total_investment_value : Q :=
  pysum (map (λ k, X (Investment k.1 k.2)) (list_prod (filtered_sources t) years)).

Definition source_total (s : string) : Q :=
  pysum (map (λ y, X (Investment s y)) years).

Definition year_total (y : Z) : Q :=
  pysum (map (λ s, X (Investment s y)) (filtered_sources t)).

Definition source_year_block (s : string) (y : Z) : list Line :=
  if Qgtb (X (Investment s y)) 0.5
  then [Source_Year y (format_inr (X (Investment s y) / 1e7))] else [].

Definition source_block (s : string) : list Line :=
  (if Qgtb (source_total s) 0
   then Source_Total s (format_inr (source_total s / 1e7))
        :: concat (map (source_year_block s) years)
   else [])
  ++ (if Qgtb (X (Slack_Target s)) 0.5
      then [Target_Shortfall s (format_inr (X (Slack_Target s) / 1e7))] else []).

Definition year_block (y : Z) : list Line :=
  Year_Total y (format_inr (year_total y / 1e7))
  :: (if Qgtb (X (Slack_Min_Budget y)) 0.5
      then [Min_Budget_Shortfall (format_inr (X (Slack_Min_Budget y) / 1e7))] else [])
  ++ (if Qgtb (X (Slack_Max_Budget y)) 0.5
      then [Max_Budget_Exceeded (format_inr (X (Slack_Max_Budget y) / 1e7))] else []).

Definition capacity_achieved : Q :=
  pysum (map (λ k, X (Investment k.1 k.2) / capitalCost t k.1)
             (list_prod renewable_sources years)).

Definition production_achieved : Q :=
  pysum (map (λ k, X (Investment k.1 k.2) / capitalCost t k.1
                   * capacityFactor k.1 * 8760 / 1e6)
             (list_prod renewable_sources years)).

Definition renewable_block : list Line :=
  Capacity_Achieved capacity_achieved (capacity_target tg)
  :: (if Qgtb (X Slack_Renewable_Capacity) 0.5
      then [Capacity_Shortfall (X Slack_Renewable_Capacity)] else [])
  ++ Production_Achieved production_achieved (production_target tg)
  :: (if Qgtb (X Slack_Renewable_Production) 0.5
      then [Production_Shortfall (X Slack_Renewable_Production / 1e6)] else []).

Definition emissions_value : Q :=
  pysum (map (λ k, X (Investment k.1 k.2) / capitalCost t k.1
                   * emissionFactor t k.1 * 8760)
             (list_prod (filtered_sources t) years)).

Definition emissions_block : list Line :=
  [Total_Emissions emissions_value (emission_target tg);
   if Qgtb emissions_value (emission_target tg)
   then Emissions_Exceed (emissions_value - emission_target tg)
   else Emissions_Below (emission_target tg - emissions_value)].

Definition report_lines : list Line :=
  [Banner; Total_Investment (format_inr (total_investment_value / 1e7));
   Heading_Breakdown]
  ++ concat (map source_block (filtered_sources t))
  ++ Heading_Budget :: concat (map year_block years)
  ++ Heading_Renewable :: renewable_block
  ++ Heading_Emissions :: emissions_block
  ++ [Key_Insights].

End Blocks.

(** ** Sample tables and solved values *)

Definition cost_row (s : string) (cost current factor : Q) : EmissionsRow :=
  {| Source := s; Capital_Cost := cost; Current_Production := current;
     Emission_Factor := factor |}.

Definition goal_row (label : string) (value : Q) : GoalRow :=
  {| Goal := label; Target_Value := value |}.

Definition renewable_rows : list EmissionsRow :=
  [cost_row "Solar" 5e7 100000 0; cost_row "Wind" 6e7 50000 0;
   cost_row "Hydropower" 1e8 50000 0; cost_row "Biomass" 7e7 10000 0.23].

Definition renewable_goals : list GoalRow :=
  [goal_row "Solar Capacity (GW)" 100; goal_row "Wind Capacity (GW)" 50;
   goal_row "Hydropower Capacity (GW)" 50].

(** Every target equals the current capacity.  One cost row ("Oil") has no
    goal and one goal row has a label the script does not know. *)
Definition balanced_tables : Tables :=
  {| emissions_data := renewable_rows ++ [cost_row "Oil" 9e7 5000 0.7];
     potential_plants_data := [];
     goals_data := renewable_goals
                   ++ [goal_row "Biomass Capacity (GW)" 10;
                       goal_row "Renewable Share (%)" 50] |}.

(** Coal is to grow from 200 GW to 210 GW; the renewables stay. *)
Definition coal_tables : Tables :=
  {| emissions_data := cost_row "Coal" 8e7 200000 0.9 :: renewable_rows;
     potential_plants_data := [];
     goals_data := goal_row "Coal Capacity (GW)" 210
                   :: renewable_goals ++ [goal_row "Biomass Capacity (GW)" 10] |}.

(** Coal is to shrink from 200 GW to 190 GW and biomass to grow by 10 MW. *)
Definition retire_tables : Tables :=
  {| emissions_data := cost_row "Coal" 8e7 200000 0.9 :: renewable_rows;
     potential_plants_data := [];
     goals_data := goal_row "Coal Capacity (GW)" 190
                   :: renewable_goals ++ [goal_row "Biomass Capacity (GW)" 10.01] |}.


(** There is no goal for biomass. *)
Definition no_biomass_tables : Tables :=
  {| emissions_data := renewable_rows;
     potential_plants_data := [];
     goals_data := renewable_goals |}.

(** Solar has two cost rows and there is no goal for biomass. *)
Definition duplicate_tables : Tables :=
  {| emissions_data := cost_row "Solar" 5e7 100000 0 :: renewable_rows;
     potential_plants_data := [];
     goals_data := renewable_goals |}.

(** All zero but the investments given. *)
Definition invest (f : string → Z → Q) (v : Var) : Q :=
  match v with
  | Investment s y => f s y
  | _ => 0
  end.

(** Solar receives the minimum annual budget every year. *)
Definition solar_only : Var → Q :=
  invest (λ s y, if String.eqb s "Solar" then min_annual_budget else 0).

(** As [solar_only], but in 2024 wind receives 0.3 of it. *)
Definition solar_and_a_little_wind : Var → Q :=
  invest (λ s y,
    if String.eqb s "Solar"
    then (if (y =? 2024)%Z then min_annual_budget - 0.3 else min_annual_budget)
    else if String.eqb s "Wind" && (y =? 2024)%Z then 0.3 else 0).

(** Coal is funded in full in 2024, solar receives the rest of the minimum
    annual budget. *)
Definition coal_then_solar : Var → Q :=
  invest (λ s y,
    if String.eqb s "Coal"
    then (if (y =? 2024)%Z then 10000 * 8e7 else 0)
    else if String.eqb s "Solar"
    then (if (y =? 2024)%Z then min_annual_budget - 10000 * 8e7
          else min_annual_budget)
    else 0).

(** ** Checking an assignment against a model *)

Definition holdsb (X : Var → Q) (c : Constr) : bool :=
  match sense c with
  | GE => Qle_bool (eval X (rhs c)) (eval X (lhs c))
  | LE => Qle_bool (eval X (lhs c)) (eval X (rhs c))
  end.

Definition feasibleb (m : Model) (X : Var → Q) : bool :=
  forallb (λ v, Qle_bool 0 (X v)) (vars m) && forallb (holdsb X) (constrs m).

(** The tables with other goal rows. *)
Definition with_goals (t : Tables) (goals : list GoalRow) : Tables :=
  {| emissions_data := emissions_data t;
     potential_plants_data := potential_plants_data t;
     goals_data := goals |}.

(** The seven goal labels the script knows, with their sources. *)
Definition recognized_goals : list (string * string) :=
  [("Coal Capacity (GW)", "Coal");
   ("Natural Gas Capacity (GW)", "Natural Gas");
   ("Nuclear Capacity (GW)", "Nuclear");
   ("Solar Capacity (GW)", "Solar");
   ("Wind Capacity (GW)", "Wind");
   ("Hydropower Capacity (GW)", "Hydropower");
   ("Biomass Capacity (GW)", "Biomass")].

(** The production target and the emissions target as sums over the
    sources. *)
Definition targetProduction (t : Tables) : Q :=
  Qsum (λ s, (targetCapacity t s - currentCapacity t s)
             * capacityFactor s * 8760 / 10^6) renewable_sources.

Definition emissionTarget (t : Tables) : Q :=
  0.43 * targetProduction t * 10^6
  + Qsum (λ s, emissionFactor t s * (targetCapacity t s - currentCapacity t s)
               * capacityFactor s * 8760 / 10^3) (filtered_sources t).

(** The assignment with the target slack of one source set to zero. *)
Definition without_target_slack (s : string) (X : Var → Q) (v : Var) : Q :=
  match v with
  | Slack_Target s' => if String.eqb s' s then 0 else X v
  | _ => X v
  end.

(** The expression has no target-slack variable. *)
Definition no_target_slack (e : LinExpr) : Prop :=
  Forall (λ kv, ∀ s, kv.2 ≠ Slack_Target s) (terms e).

(** The coefficient of every term is non-negative. *)
Definition nonneg_coefficients (e : LinExpr) : Prop :=
  Forall (λ kv, 0 <= kv.1) (terms e).

(** Biomass is funded in full in 2024, solar receives the rest of the
    minimum annual budget, and the emissions slack takes up what the
    emissions constraint lacks. *)
Definition biomass_then_solar (v : Var) : Q :=
  match v with
  | Slack_Emissions => 2.3 - emissions_target retire_tables
  | _ =>
      invest (λ s y,
        if String.eqb s "Biomass"
        then (if (y =? 2024)%Z then 10 * 7e7 else 0)
        else if String.eqb s "Solar"
        then (if (y =? 2024)%Z then min_annual_budget - 10 * 7e7
              else min_annual_budget)
        else 0) v
  end.

(** The assignment with another value of the emissions slack. *)
Definition with_emissions_slack (q : Q) (X : Var → Q) (v : Var) : Q :=
  match v with
  | Slack_Emissions => q
  | _ => X v
  end.


(** ** Quantities named by the further properties *)

(** The rupee amount a formatted value stands for: a crore is 10^7 and a
    lakh crore 10^12. *)
Definition rupees (a : INR) : Q :=
  match a with
  | Lakh_Crore q => q * 10^12
  | Crore q => q * 10^7
  end.

(** [max(q, 0)] *)
Definition Qpos (q : Q) : Q := if Qle_bool 0 q then q else 0.

(** The assignment that invests nothing and lets every slack variable take
    up what its constraint lacks. *)
Definition all_slack (t : Tables) (v : Var) : Q :=
  match v with
  | Investment _ _ => 0
  | Slack_Target s =>
      Qpos ((targetCapacity t s - currentCapacity t s) * capitalCost t s)
  | Slack_Min_Budget _ => min_annual_budget
  | Slack_Max_Budget _ => 0
  | Slack_Renewable_Capacity => Qpos (renewable_capacity_target t)
  | Slack_Renewable_Production => Qpos (renewable_production_target t * 1e6)
  | Slack_Emissions => Qpos (- emissions_target t)
  end.

(** The renewable source whose subscript raises first: the first one, in
    the order of [renewable_sources], without a target capacity, and if
    there is none the first one without a cost row. *)
Definition first_missing (t : Tables) : option string :=
  match list_find (λ r, target_capacity t !! r = None) renewable_sources with
  | Some p => Some p.2
  | None => snd <$> list_find (λ r, r ∉ sources t) renewable_sources
  end.

(** The last row of the cost table for a source. *)
Definition cost_row_of (t : Tables) (s : string) : option EmissionsRow :=
  last (filter (λ r, Source r = s) (emissions_data t)).

(** An expression over investment variables only. *)
Definition investments_only (e : LinExpr) : Prop :=
  const e == 0 ∧ Forall (λ kv, ∃ s y, kv.2 = Investment s y) (terms e).

(** ** Deciding the side conditions *)

#[global] Instance Qeq_decision (x y : Q) : Decision (x == y) := Qeq_dec x y.

#[global] Instance renewables_present_dec (t : Tables) : Decision (renewables_present t).
Proof.
  refine (cast_if (decide (Forall (λ r, is_Some (target_capacity t !! r)
                                        ∧ r ∈ sources t) renewable_sources)));
    unfold renewables_present; by rewrite Forall_forall in *.
Defined.

#[global] Instance costs_nonzero_dec (t : Tables) : Decision (costs_nonzero t).
Proof.
  refine (cast_if (decide (Forall (λ s, ¬ capitalCost t s == 0)
                                  (filtered_sources t))));
    unfold costs_nonzero; by rewrite Forall_forall in *.
Defined.

Create HintDb lookups.
Create HintDb lp.

(** Decide a closed decidable statement by evaluating its decision. *)
Ltac by_computation := apply (bool_decide_unpack _); vm_compute; exact I.


(** * Properties *)

(** ** Exceptions: when a computation returns *)

Lemma bind_inr {A B} (m : result A) (f : A → result B) (b : B) :
  m ≫= f = inr b ↔ ∃ a, m = inr a ∧ f a = inr b.
Proof.
  destruct m as [e|a]; simpl; split.
  - discriminate.
  - intros (a & Ha & _). discriminate.
  - eauto.
  - intros (a' & [= <-] & Hf). exact Hf.
Qed.

Lemma mapM_inr_ext {A B} (f : A → result B) (g : A → B) (l : list A) :
  (∀ x, x ∈ l → f x = inr (g x)) → mapM f l = inr (map g l).
Proof.
  induction l as [|x l IH]; intros Hf; simpl; [reflexivity|].
  rewrite Hf by left. simpl. rewrite IH; [reflexivity|].
  intros y Hy. apply Hf. by right.
Qed.

Lemma mapM_inr_inv {A B} (f : A → result B) (l : list A) (bs : list B) :
  mapM f l = inr bs → Forall2 (λ x b, f x = inr b) l bs.
Proof.
  revert bs. induction l as [|x l IH]; intros bs; simpl.
  - intros [= <-]. constructor.
  - intros H. apply bind_inr in H as (b & Hb & H).
    apply bind_inr in H as (bs' & Hbs & [= <-]). constructor; auto.
Qed.

Lemma mapM_inl {A B} (f : A → result B) (l1 l2 : list A) (x : A) (e : Exn) :
  (∀ y, y ∈ l1 → ∃ b, f y = inr b) → f x = inl e →
  mapM f (l1 ++ x :: l2) = inl e.
Proof.
  induction l1 as [|y l1 IH]; intros Hok Hx; simpl.
  - by rewrite Hx.
  - destruct (Hok y) as [b ->]; [left|]. simpl.
    rewrite IH; [reflexivity| |exact Hx].
    intros z Hz. apply Hok. by right.
Qed.

(** ** Dictionaries built from rows *)

Section Rows.
Context {R A : Type} (key : R → option string) (val : R → A).

(** A lookup finds the value of the last row that carries the key. *)
Lemma lookup_foldl_insert_row (rows : list R) (d : gmap string A) (s : string) :
  foldl (insert_row key val) d rows !! s =
    match last (filter (λ r, key r = Some s) rows) with
    | Some r => Some (val r)
    | None => d !! s
    end.
Proof.
  revert d. induction rows as [|r rows IH]; intros d; [reflexivity|].
  simpl foldl. rewrite IH, filter_cons.
  destruct (decide (key r = Some s)) as [Hk|Hk].
  - rewrite last_cons. destruct (last (filter _ rows)); [reflexivity|].
    unfold insert_row. rewrite Hk. apply lookup_insert_eq.
  - destruct (last (filter _ rows)); [reflexivity|].
    unfold insert_row. destruct (key r) as [k|] eqn:Ek; [|reflexivity].
    apply lookup_insert_ne. congruence.
Qed.

Lemma is_Some_foldl_insert_row (rows : list R) (s : string) :
  is_Some (foldl (insert_row key val) ∅ rows !! s) ↔ ∃ r, r ∈ rows ∧ key r = Some s.
Proof.
  rewrite lookup_foldl_insert_row, lookup_empty.
  destruct (last _) as [r|] eqn:El.
  - split; [intros _|by eauto].
    apply last_Some_elem_of, list_elem_of_filter in El. exists r. tauto.
  - split; [by intros [? ?]|]. intros (r & Hr & Hk).
    apply last_None in El.
    assert (r ∈ filter (λ r, key r = Some s) rows) as Hin
      by (apply list_elem_of_filter; auto).
    rewrite El in Hin. by apply not_elem_of_nil in Hin.
Qed.
End Rows.

Lemma dict_zip_rows {R A} (k : R → string) (f : R → A) (rows : list R) :
  dict_zip (map k rows) (map f rows) = foldl (insert_row (Some ∘ k) f) ∅ rows.
Proof.
  unfold dict_zip. generalize (∅ : gmap string A).
  induction rows as [|r rows IH]; intros d; [reflexivity|]. simpl. apply IH.
Qed.

Lemma dict_zip_is_Some {R A} (k : R → string) (f : R → A) (rows : list R) (s : string) :
  is_Some (dict_zip (map k rows) (map f rows) !! s) ↔ s ∈ map k rows.
Proof.
  rewrite dict_zip_rows, is_Some_foldl_insert_row, list_elem_of_fmap.
  split; intros (r & H1 & H2); exists r; simpl in *; split; congruence.
Qed.


(** ** Sums *)

Lemma Qsum_app {A} (f : A → Q) (l k : list A) :
  Qsum f (l ++ k) == Qsum f l + Qsum f k.
Proof. induction l as [|x l IH]; simpl; [lra|]. rewrite IH. lra. Qed.

Lemma Qsum_ext {A} (f g : A → Q) (l : list A) :
  (∀ x, x ∈ l → f x == g x) → Qsum f l == Qsum g l.
Proof.
  induction l as [|x l IH]; intros H; simpl; [reflexivity|].
  rewrite (H x) by left. rewrite IH; [reflexivity|].
  intros y Hy. apply H. by right.
Qed.

Lemma Qsum_le {A} (f g : A → Q) (l : list A) :
  (∀ x, x ∈ l → f x <= g x) → Qsum f l <= Qsum g l.
Proof.
  induction l as [|x l IH]; intros H; simpl; [lra|].
  assert (f x <= g x) by (apply H; left).
  assert (Qsum f l <= Qsum g l) by (apply IH; intros y Hy; apply H; by right).
  lra.
Qed.

Lemma Qsum_nonneg {A} (f : A → Q) (l : list A) :
  (∀ x, x ∈ l → 0 <= f x) → 0 <= Qsum f l.
Proof.
  intros H. assert (Qsum (λ _, 0) l <= Qsum f l) as Hle by (by apply Qsum_le).
  assert (Qsum (λ _ : A, 0) l == 0) as Hz by (clear; induction l; simpl; lra).
  lra.
Qed.

Lemma Qsum_map {A B} (g : A → B) (f : B → Q) (l : list A) :
  Qsum f (map g l) = Qsum (f ∘ g) l.
Proof. induction l as [|x l IH]; simpl; [reflexivity|]. by rewrite IH. Qed.

Lemma Qsum_plus {A} (f g : A → Q) (l : list A) :
  Qsum (λ x, f x + g x) l == Qsum f l + Qsum g l.
Proof. induction l as [|x l IH]; simpl; [lra|]. rewrite IH. lra. Qed.

Lemma Qsum_scale {A} (c : Q) (f : A → Q) (l : list A) :
  Qsum (λ x, c * f x) l == c * Qsum f l.
Proof. induction l as [|x l IH]; simpl; [lra|]. rewrite IH. lra. Qed.

Lemma Qsum_prod {A B} (f : A * B → Q) (l : list A) (k : list B) :
  Qsum f (list_prod l k) == Qsum (λ x, Qsum (λ y, f (x, y)) k) l.
Proof.
  induction l as [|x l IH]; simpl; [reflexivity|].
  rewrite Qsum_app, IH, Qsum_map. reflexivity.
Qed.

Lemma Qsum_swap {A B} (g : A → B → Q) (l : list A) (k : list B) :
  Qsum (λ x, Qsum (λ y, g x y) k) l == Qsum (λ y, Qsum (λ x, g x y) l) k.
Proof.
  induction l as [|x l IH]; simpl.
  - induction k; simpl; lra.
  - rewrite IH, Qsum_plus. reflexivity.
Qed.

(** A sum of non-negative terms is at least each of them. *)
Lemma Qsum_ge_elem {A} (f : A → Q) (l : list A) (x : A) :
  (∀ y, y ∈ l → 0 <= f y) → x ∈ l → f x <= Qsum f l.
Proof.
  induction l as [|y l IH]; intros Hpos Hx; [by apply not_elem_of_nil in Hx|].
  simpl. apply elem_of_cons in Hx as [->|Hx].
  - assert (0 <= Qsum f l) by (apply Qsum_nonneg; intros; apply Hpos; by right). lra.
  - assert (0 <= f y) by (apply Hpos; left).
    assert (f x <= Qsum f l) by (apply IH; [intros; apply Hpos; by right|done]). lra.
Qed.

Lemma pysum_Qsum (l : list Q) : pysum l == Qsum id l.
Proof.
  unfold pysum. assert (∀ a, foldl Qplus a l == a + Qsum id l) as H.
  { induction l as [|x l IH]; intros a; simpl; [lra|]. rewrite IH. unfold id. lra. }
  rewrite H. lra.
Qed.

Lemma pysum_map {A} (f : A → Q) (l : list A) : pysum (map f l) == Qsum f l.
Proof. rewrite pysum_Qsum, Qsum_map. reflexivity. Qed.

(** ** Linear expressions *)

Lemma eval_of_var (X : Var → Q) (v : Var) : eval X (of_var v) == X v.
Proof. unfold eval. simpl. lra. Qed.

Lemma eval_of_const (X : Var → Q) (c : Q) : eval X (of_const c) == c.
Proof. unfold eval. simpl. lra. Qed.

Lemma eval_ladd (X : Var → Q) (a b : LinExpr) :
  eval X (ladd a b) == eval X a + eval X b.
Proof.
  unfold eval. simpl. generalize (terms b) as tb. intros tb.
  induction (terms a) as [|kv ta IH]; simpl; [lra|]. lra.
Qed.

Lemma eval_lscale (X : Var → Q) (c : Q) (e : LinExpr) :
  eval X (lscale c e) == c * eval X e.
Proof.
  unfold eval. simpl. induction (terms e) as [|kv te IH]; simpl; lra.
Qed.

Lemma eval_quicksum (X : Var → Q) (es : list LinExpr) :
  eval X (quicksum es) == Qsum (eval X) es.
Proof.
  unfold quicksum.
  assert (∀ a, eval X (foldl ladd a es) == eval X a + Qsum (eval X) es) as H.
  { induction es as [|e es IH]; intros a; simpl; [lra|].
    rewrite IH, eval_ladd. lra. }
  rewrite H, eval_of_const. lra.
Qed.

Lemma eval_quicksum_map {A} (X : Var → Q) (f : A → LinExpr) (l : list A) :
  eval X (quicksum (map f l)) == Qsum (λ x, eval X (f x)) l.
Proof. rewrite eval_quicksum, Qsum_map. reflexivity. Qed.

(** Two assignments that agree on the variables of an expression give it
    the same value. *)
Lemma eval_agree (X Y : Var → Q) (e : LinExpr) :
  (∀ kv, kv ∈ terms e → X kv.2 == Y kv.2) → eval X e == eval Y e.
Proof.
  unfold eval. intros H. apply Qplus_inj_l.
  induction (terms e) as [|kv te IH]; simpl; [reflexivity|].
  rewrite (H kv) by left. rewrite IH; [reflexivity|].
  intros; apply H; by right.
Qed.


(** ** Subscripts *)

Lemma getitem_Some {A} (d : gmap string A) (k : string) (v : A) :
  d !! k = Some v → getitem d k = inr v.
Proof. unfold getitem. by intros ->. Qed.

Lemma getitem_None {A} (d : gmap string A) (k : string) :
  d !! k = None → getitem d k = inl (KeyError (KStr k)).
Proof. unfold getitem. by intros ->. Qed.

Lemma getitem_default (d : gmap string Q) (k : string) :
  is_Some (d !! k) → getitem d k = inr (default 0 (d !! k)).
Proof. intros [v Hv]. rewrite Hv. by apply getitem_Some. Qed.

Lemma tupledict_get_elem {K} `{EqDecision K} (keys : list K) (mk : K → Var)
    (err : K → Key) (k : K) :
  k ∈ keys → tupledict_get keys mk err k = inr (mk k).
Proof. intros Hk. unfold tupledict_get. by rewrite decide_True. Qed.

Lemma pydiv_nonzero (x c : Q) : ¬ c == 0 → pydiv x c = inr (x / c).
Proof.
  intros Hc. unfold pydiv. destruct (Qeq_bool c 0) eqn:E; [|reflexivity].
  apply Qeq_bool_eq in E. contradiction.
Qed.

Lemma pydiv_zero (x c : Q) : c == 0 → pydiv x c = inl ZeroDivisionError.
Proof. intros Hc. unfold pydiv. by rewrite (Qeq_eq_bool _ _ Hc). Qed.

Lemma ldiv_nonzero (e : LinExpr) (c : Q) : ¬ c == 0 → ldiv e c = inr (lscale (1 / c) e).
Proof. intros Hc. unfold ldiv. by rewrite pydiv_nonzero. Qed.

Lemma ldiv_zero (e : LinExpr) (c : Q) : c == 0 → ldiv e c = inl ZeroDivisionError.
Proof. intros Hc. unfold ldiv. by rewrite pydiv_zero. Qed.

Lemma elem_of_years (y : Z) : y ∈ years ↔ (2024 <= y <= 2030)%Z.
Proof. unfold years. rewrite elem_of_seqZ. lia. Qed.

Lemma goal_mappings_capacity_factors (g s : string) :
  goal_mappings !! g = Some s → is_Some (capacity_factors !! s).
Proof.
  assert (map_Forall (λ _ s, is_Some (capacity_factors !! s)) goal_mappings) as H
    by (apply (bool_decide_unpack _); vm_compute; exact I).
  apply H.
Qed.

Section Lookups.
Context (t : Tables).

Lemma capital_cost_is_Some (s : string) :
  is_Some (capital_cost t !! s) ↔ s ∈ sources t.
Proof. apply dict_zip_is_Some. Qed.

Lemma current_capacity_is_Some (s : string) :
  is_Some (current_capacity t !! s) ↔ s ∈ sources t.
Proof. apply dict_zip_is_Some. Qed.

Lemma emission_factors_is_Some (s : string) :
  is_Some (emission_factors t !! s) ↔ s ∈ sources t.
Proof. apply dict_zip_is_Some. Qed.

Lemma target_capacity_rows :
  target_capacity t =
    foldl (insert_row (λ row, goal_mappings !! Goal row)
                      (λ row, Target_Value row * 1000)) ∅ (goals_data t).
Proof. reflexivity. Qed.

Lemma target_capacity_capacity_factors (s : string) :
  is_Some (target_capacity t !! s) → is_Some (capacity_factors !! s).
Proof.
  rewrite target_capacity_rows, is_Some_foldl_insert_row.
  intros (row & _ & Hrow). by eapply goal_mappings_capacity_factors.
Qed.

Lemma elem_of_filtered_sources (s : string) :
  s ∈ filtered_sources t ↔ s ∈ sources t ∧ is_Some (target_capacity t !! s).
Proof. unfold filtered_sources. rewrite list_elem_of_filter. tauto. Qed.

Lemma elem_of_investment_keys (s : string) (y : Z) :
  (s, y) ∈ investment_keys t ↔ s ∈ filtered_sources t ∧ y ∈ years.
Proof. unfold investment_keys. rewrite !list_elem_of_In. apply in_prod_iff. Qed.

Lemma getitem_capital_cost (s : string) :
  s ∈ sources t → getitem (capital_cost t) s = inr (capitalCost t s).
Proof. intros H. by apply getitem_default, capital_cost_is_Some. Qed.

Lemma getitem_current_capacity (s : string) :
  s ∈ sources t → getitem (current_capacity t) s = inr (currentCapacity t s).
Proof. intros H. by apply getitem_default, current_capacity_is_Some. Qed.

Lemma getitem_emission_factors (s : string) :
  s ∈ sources t → getitem (emission_factors t) s = inr (emissionFactor t s).
Proof. intros H. by apply getitem_default, emission_factors_is_Some. Qed.

Lemma getitem_target_capacity (s : string) :
  is_Some (target_capacity t !! s) →
  getitem (target_capacity t) s = inr (targetCapacity t s).
Proof. apply getitem_default. Qed.

Lemma getitem_capacity_factors (s : string) :
  is_Some (target_capacity t !! s) →
  getitem capacity_factors s = inr (capacityFactor s).
Proof. intros H. by apply getitem_default, target_capacity_capacity_factors. Qed.

Lemma investment_elem (s : string) (y : Z) :
  s ∈ filtered_sources t → y ∈ years → investment t s y = inr (Investment s y).
Proof.
  intros Hs Hy. unfold investment.
  rewrite tupledict_get_elem; [reflexivity|]. by apply elem_of_investment_keys.
Qed.

Lemma slack_target_elem (s : string) :
  s ∈ filtered_sources t → slack_target t s = inr (Slack_Target s).
Proof. apply tupledict_get_elem. Qed.

Lemma slack_min_budget_elem (y : Z) :
  y ∈ years → slack_min_budget y = inr (Slack_Min_Budget y).
Proof. apply tupledict_get_elem. Qed.

Lemma slack_max_budget_elem (y : Z) :
  y ∈ years → slack_max_budget y = inr (Slack_Max_Budget y).
Proof. apply tupledict_get_elem. Qed.

End Lookups.

#[global] Hint Resolve getitem_capital_cost getitem_current_capacity
  getitem_emission_factors getitem_target_capacity getitem_capacity_factors
  investment_elem slack_target_elem slack_min_budget_elem slack_max_budget_elem
  : lookups.


(** ** Model construction, phase by phase *)

Lemma mapM_fails {A B} (P : Exn → Prop) (f : A → result B) (l : list A) :
  (∀ x, x ∈ l → (∃ b, f x = inr b) ∨ (∃ e, f x = inl e ∧ P e)) →
  (∃ x, x ∈ l ∧ ∀ b, f x ≠ inr b) →
  ∃ e, mapM f l = inl e ∧ P e.
Proof.
  induction l as [|x l IH]; intros Hall (x0 & Hx0 & Hfail).
  - by apply not_elem_of_nil in Hx0.
  - simpl. destruct (Hall x) as [[b Hb]|(e & He & HP)]; [left| |].
    + rewrite Hb. simpl. destruct IH as (e & -> & HP).
      * intros y Hy. apply Hall. by right.
      * apply elem_of_cons in Hx0 as [->|Hx0]; [by destruct (Hfail b)|eauto].
      * eauto.
    + rewrite He. eauto.
Qed.

Lemma result_bind_inr {A B} (a : A) (f : A → result B) : inr a ≫= f = f a.
Proof. reflexivity. Qed.

Lemma flat_map_singleton {A B} (f : A → B) (l : list A) :
  flat_map (λ x, [f x]) l = map f l.
Proof. induction l as [|x l IH]; simpl; [reflexivity|]. by rewrite IH. Qed.

Lemma add_constrs_nil (m : Model) : add_constrs [] m = m.
Proof. destruct m. unfold add_constrs. simpl. by rewrite app_nil_r. Qed.

Lemma add_constrs_app (cs cs' : list Constr) (m : Model) :
  add_constrs cs' (add_constrs cs m) = add_constrs (cs ++ cs') m.
Proof. unfold add_constrs. simpl. by rewrite app_assoc. Qed.

Lemma for_add_constrs {A} (l : list A) (body : A → Build unit)
    (g : A → list Constr) (m : Model) :
  (∀ x m, x ∈ l → body x m = (add_constrs (g x) m, inr tt)) →
  for_ l body m = (add_constrs (flat_map g l) m, inr tt).
Proof.
  revert m. induction l as [|x l IH]; intros m Hbody; simpl.
  - by rewrite add_constrs_nil.
  - unfold mbind, Build_bind. rewrite Hbody by left.
    rewrite IH, add_constrs_app; [reflexivity|].
    intros y m' Hy. apply Hbody. by right.
Qed.

Lemma NoDup_list_prod {A B} (l : list A) (k : list B) :
  NoDup l → NoDup k → NoDup (list_prod l k).
Proof.
  intros Hl Hk. induction Hl as [|x l Hx Hl IH]; simpl; [constructor|].
  apply NoDup_app. split; [|split; [|exact IH]].
  - apply NoDup_fmap_2; [|exact Hk]. by intros y y' [= ->].
  - intros p (y & -> & _)%list_elem_of_fmap Hin.
    apply list_elem_of_In, in_prod_iff in Hin as [Hin _].
    by apply list_elem_of_In in Hin.
Qed.

Lemma NoDup_list_prod_inv {A B} (l : list A) (k : list B) :
  NoDup (list_prod l k) → k ≠ [] → NoDup l.
Proof.
  intros Hnd Hk. destruct k as [|y k]; [done|]. clear Hk.
  induction l as [|x l IH]; [constructor|].
  change (list_prod (x :: l) (y :: k))
    with (map (pair x) (y :: k) ++ list_prod l (y :: k)) in Hnd.
  apply NoDup_app in Hnd as (_ & Hdis & Hrest). constructor; [|by apply IH].
  intros Hx. apply (Hdis (x, y)).
  - apply (list_elem_of_fmap_2 (pair x)). left.
  - apply list_elem_of_In, in_prod_iff. split; apply list_elem_of_In; [done|left].
Qed.

Section Phases.
Context (t : Tables).

Lemma objective_expr_run : objective_expr t = inr (objective_function t).
Proof.
  unfold objective_expr.
  rewrite (mapM_inr_ext _ (λ k, of_var (Investment k.1 k.2))).
  2:{ intros [s y] [Hs Hy]%elem_of_investment_keys. simpl.
      by rewrite investment_elem. }
  rewrite result_bind_inr, (mapM_inr_ext _ (λ s, of_var (Slack_Target s))).
  2:{ intros s Hs. by rewrite slack_target_elem. }
  rewrite result_bind_inr, (mapM_inr_ext _ (λ y, ladd (of_var (Slack_Min_Budget y))
                                            (of_var (Slack_Max_Budget y)))).
  2:{ intros y Hy. by rewrite slack_min_budget_elem, slack_max_budget_elem. }
  reflexivity.
Qed.

Lemma total_target_cost_run (s : string) :
  s ∈ filtered_sources t →
  total_target_cost t s =
    inr ((targetCapacity t s - currentCapacity t s) * capitalCost t s).
Proof.
  intros [Hs Ht]%elem_of_filtered_sources. unfold total_target_cost.
  rewrite getitem_target_capacity, getitem_current_capacity,
    getitem_capital_cost by done.
  reflexivity.
Qed.

Lemma target_constr_run (s : string) :
  s ∈ filtered_sources t → target_constr t s = inr (Target_constraint t s).
Proof.
  intros Hs. unfold target_constr.
  rewrite total_target_cost_run, slack_target_elem by done. reflexivity.
Qed.

Lemma min_budget_constr_run (y : Z) :
  y ∈ years → min_budget_constr t y = inr (Min_Budget_constraint t y).
Proof. intros Hy. unfold min_budget_constr. by rewrite slack_min_budget_elem. Qed.

Lemma max_budget_constr_run (y : Z) :
  y ∈ years → max_budget_constr t y = inr (Max_Budget_constraint t y).
Proof. intros Hy. unfold max_budget_constr. by rewrite slack_max_budget_elem. Qed.

Lemma set_objective_run (m : Model) :
  set_objective t m =
    ({| vars := vars m; objective := objective_function t; constrs := constrs m |},
     inr tt).
Proof.
  unfold set_objective, mbind, Build_bind, py. by rewrite objective_expr_run.
Qed.

Lemma add_target_constraints_run (m : Model) :
  add_target_constraints t m = (add_constrs (target_constraints t) m, inr tt).
Proof.
  unfold add_target_constraints, target_constraints.
  rewrite (for_add_constrs _ _ (λ s, [Target_constraint t s])).
  - by rewrite flat_map_singleton.
  - intros s m' Hs. unfold mbind, Build_bind, py.
    by rewrite target_constr_run.
Qed.

Lemma add_budget_constraints_run (m : Model) :
  add_budget_constraints t m = (add_constrs (budget_constraints t) m, inr tt).
Proof.
  unfold add_budget_constraints, budget_constraints.
  apply for_add_constrs. intros y m' Hy. unfold mbind, Build_bind, py.
  rewrite min_budget_constr_run, max_budget_constr_run by done.
  unfold addConstr, add_constrs. simpl. by rewrite <- app_assoc.
Qed.

(** *** Creating the variables *)

Lemma NoDup_investment_keys : NoDup (investment_keys t) ↔ NoDup (filtered_sources t).
Proof.
  unfold investment_keys. split.
  - intros H. eapply NoDup_list_prod_inv; [exact H|]. discriminate.
  - intros H. apply NoDup_list_prod; [exact H|]. apply NoDup_seqZ.
Qed.

Lemma add_variables_run (m : Model) :
  NoDup (filtered_sources t) →
  add_variables t m =
    ({| vars := vars m ++ all_vars t; objective := objective m;
        constrs := constrs m |}, inr tt).
Proof.
  intros Hnd. unfold add_variables, mbind, Build_bind, addVars, addVar.
  rewrite (decide_True (P := NoDup (investment_keys t)))
    by (by apply NoDup_investment_keys).
  rewrite (decide_True (P := NoDup (filtered_sources t))) by done.
  rewrite !(decide_True (P := NoDup years)) by apply NoDup_seqZ.
  cbn [vars objective constrs]. unfold all_vars.
  by rewrite <- !app_assoc.
Qed.

(** A repeated filtered source: the first [addVars] raises and the model
    stays as it was. *)
Lemma add_variables_duplicate (m : Model) :
  ¬ NoDup (filtered_sources t) → add_variables t m = (m, inl duplicate_keys).
Proof.
  intros Hnd. unfold add_variables, mbind, Build_bind, addVars.
  rewrite (decide_False (P := NoDup (investment_keys t))); [done|].
  by rewrite NoDup_investment_keys.
Qed.

Lemma build_duplicate :
  ¬ NoDup (filtered_sources t) →
  build t empty_model = (empty_model, inl duplicate_keys).
Proof.
  intros Hnd. unfold build. unfold mbind at 1. unfold Build_bind at 1.
  by rewrite add_variables_duplicate.
Qed.

(** When no filtered source is repeated, the construction reaches the
    renewable targets with the variables, the objective, the target
    constraints and the budget constraints in the model. *)
Lemma build_prefix :
  NoDup (filtered_sources t) →
  build t empty_model =
    (ren ← add_renewable_constraints t;
     em_target ← add_emissions_constraint t ren.2;
     mret {| capacity_target := ren.1;
             production_target := ren.2;
             emission_target := em_target |}) (model_after_budgets t).
Proof.
  intros Hnd. unfold build. unfold mbind at 1 2 3 4. unfold Build_bind at 1 2 3 4.
  rewrite add_variables_run by done. cbn [empty_model vars objective constrs].
  rewrite set_objective_run, add_target_constraints_run,
    add_budget_constraints_run.
  unfold add_constrs. cbn [vars objective constrs]. rewrite !app_nil_l.
  reflexivity.
Qed.

End Phases.


Lemma elem_of_list_prod {A B} (l : list A) (k : list B) (x : A) (y : B) :
  (x, y) ∈ list_prod l k ↔ x ∈ l ∧ y ∈ k.
Proof. rewrite !list_elem_of_In. apply in_prod_iff. Qed.

Lemma years_nonempty : 2024%Z ∈ years.
Proof. apply elem_of_years. lia. Qed.

Section Renewables.
Context (t : Tables).

Lemma renewables_present_filtered (r : string) :
  renewables_present t → r ∈ renewable_sources → r ∈ filtered_sources t.
Proof.
  intros Hp Hr. apply elem_of_filtered_sources.
  destruct (Hp r Hr). tauto.
Qed.

Lemma not_renewables_present :
  ¬ renewables_present t ↔
  ∃ r, r ∈ renewable_sources ∧ (target_capacity t !! r = None ∨ r ∉ sources t).
Proof.
  split.
  - intros H.
    assert (¬ Forall (λ r, is_Some (target_capacity t !! r) ∧ r ∈ sources t)
              renewable_sources) as HF
      by (rewrite Forall_forall; exact H).
    apply not_Forall_Exists in HF; [|intros ?; apply _].
    apply Exists_exists in HF as (r & Hr & Hn). exists r. split; [done|].
    simpl in Hn. destruct (target_capacity t !! r) eqn:E; [|by left].
    right. intros Hs. apply Hn. eauto.
  - intros (r & Hr & Hn) Hp. destruct (Hp r Hr) as [[v Hv] Hs].
    destruct Hn; congruence.
Qed.

Lemma total_renewable_capacity_target_run :
  renewables_present t →
  total_renewable_capacity_target t = inr (renewable_capacity_target t).
Proof.
  intros Hp. unfold total_renewable_capacity_target.
  rewrite (mapM_inr_ext _ (targetCapacity t)); [reflexivity|].
  intros r Hr. apply getitem_target_capacity. by destruct (Hp r Hr).
Qed.

Lemma total_renewable_production_target_run :
  renewables_present t →
  total_renewable_production_target t = inr (renewable_production_target t).
Proof.
  intros Hp. unfold total_renewable_production_target.
  rewrite (mapM_inr_ext _ (λ s, (targetCapacity t s - currentCapacity t s)
                                * capacityFactor s * 8760 / 1e6)); [reflexivity|].
  intros r Hr. destruct (Hp r Hr) as [Ht Hs].
  by rewrite getitem_target_capacity, getitem_current_capacity,
    (getitem_capacity_factors t).
Qed.

(** A renewable source without a goal row or without a cost row: one of the
    two targets raises [KeyError]. *)
Lemma renewable_targets_missing :
  ¬ renewables_present t →
  ∃ e, renewable_key_error e ∧
       (total_renewable_capacity_target t = inl e ∨
        ∃ c, total_renewable_capacity_target t = inr c ∧
             total_renewable_production_target t = inl e).
Proof.
  intros Hn.
  destruct (decide (Forall (λ r, is_Some (target_capacity t !! r)) renewable_sources))
    as [Hall|Hsome].
  - (* every renewable has a target: the production target raises *)
    rewrite Forall_forall in Hall.
    destruct (mapM_fails renewable_key_error
                (λ source,
                   tc ← getitem (target_capacity t) source;
                   cur ← getitem (current_capacity t) source;
                   cf ← getitem capacity_factors source;
                   mret ((tc - cur) * cf * 8760 / 1e6)) renewable_sources)
      as (e & He & HP).
    + intros r Hr. rewrite getitem_target_capacity by auto.
      rewrite result_bind_inr.
      destruct (current_capacity t !! r) as [c|] eqn:Ec.
      * left. rewrite (getitem_Some _ _ _ Ec), result_bind_inr.
        rewrite (getitem_capacity_factors t) by auto. eauto.
      * right. rewrite (getitem_None _ _ Ec). eexists; split; [reflexivity|].
        by exists r.
    + apply not_renewables_present in Hn as (r & Hr & [Hnone|Hs]).
      { destruct (Hall r Hr); congruence. }
      exists r. split; [done|]. intros b.
      rewrite getitem_target_capacity by auto. rewrite result_bind_inr.
      rewrite (getitem_None (current_capacity t)); [by simpl|].
      apply eq_None_not_Some. by rewrite current_capacity_is_Some.
    + exists e. split; [done|]. right.
      exists (pysum (map (targetCapacity t) renewable_sources)). split.
      * unfold total_renewable_capacity_target.
        rewrite (mapM_inr_ext _ (targetCapacity t)); [reflexivity|].
        intros r Hr. apply getitem_target_capacity; auto.
      * unfold total_renewable_production_target. by rewrite He.
  - (* some renewable has no target: the capacity target raises *)
    apply not_Forall_Exists in Hsome; [|intros ?; apply _].
    apply Exists_exists in Hsome as (r & Hr & Hnone). simpl in Hnone.
    destruct (mapM_fails renewable_key_error (getitem (target_capacity t))
                renewable_sources) as (e & He & HP).
    + intros r' Hr'. destruct (target_capacity t !! r') as [v|] eqn:E.
      * left. rewrite (getitem_Some _ _ _ E). eauto.
      * right. rewrite (getitem_None _ _ E). eexists; split; [reflexivity|].
        by exists r'.
    + exists r. split; [done|]. intros b.
      rewrite getitem_None; [by simpl|]. by apply eq_None_not_Some.
    + exists e. split; [done|]. left.
      unfold total_renewable_capacity_target. by rewrite He.
Qed.

Lemma renewable_capacity_constr_run :
  renewables_present t →
  (∀ r, r ∈ renewable_sources → ¬ capitalCost t r == 0) →
  renewable_capacity_constr t (renewable_capacity_target t) =
    inr (Renewable_Capacity_constraint t).
Proof.
  intros Hp Hnz. unfold renewable_capacity_constr.
  rewrite (mapM_inr_ext _ (λ k, lscale (1 / capitalCost t k.1)
                                  (of_var (Investment k.1 k.2)))); [reflexivity|].
  intros [r y] [Hr Hy]%elem_of_list_prod. simpl.
  destruct (Hp r Hr) as [Ht Hs].
  rewrite investment_elem by (by apply renewables_present_filtered || done).
  rewrite result_bind_inr, getitem_capital_cost, result_bind_inr by done.
  by apply ldiv_nonzero, Hnz.
Qed.

Lemma renewable_production_constr_run :
  renewables_present t →
  (∀ r, r ∈ renewable_sources → ¬ capitalCost t r == 0) →
  renewable_production_constr t (renewable_production_target t) =
    inr (Renewable_Production_constraint t).
Proof.
  intros Hp Hnz. unfold renewable_production_constr.
  rewrite (mapM_inr_ext _ (λ k, lscale 8760 (lscale (capacityFactor k.1)
                                  (lscale (1 / capitalCost t k.1)
                                     (of_var (Investment k.1 k.2))))));
    [reflexivity|].
  intros [r y] [Hr Hy]%elem_of_list_prod. simpl.
  destruct (Hp r Hr) as [Ht Hs].
  rewrite investment_elem by (by apply renewables_present_filtered || done).
  rewrite result_bind_inr, getitem_capital_cost, result_bind_inr by done.
  rewrite ldiv_nonzero, result_bind_inr by auto.
  by rewrite (getitem_capacity_factors t).
Qed.

(** A renewable source with capital cost zero: building the capacity
    constraint divides by it. *)
Lemma renewable_capacity_constr_zero (target : Q) :
  renewables_present t →
  (∃ r, r ∈ renewable_sources ∧ capitalCost t r == 0) →
  renewable_capacity_constr t target = inl ZeroDivisionError.
Proof.
  intros Hp (r0 & Hr0 & Hz). unfold renewable_capacity_constr.
  destruct (mapM_fails (λ e, e = ZeroDivisionError)
              (λ k : string * Z,
                 v ← investment t k.1 k.2;
                 cc ← getitem (capital_cost t) k.1;
                 ldiv (of_var v) cc) (list_prod renewable_sources years))
    as (e & -> & ->); [| |reflexivity].
  - intros [r y] [Hr Hy]%elem_of_list_prod. simpl.
    destruct (Hp r Hr) as [Ht Hs].
    rewrite investment_elem by (by apply renewables_present_filtered || done).
    rewrite result_bind_inr, getitem_capital_cost, result_bind_inr by done.
    destruct (decide (capitalCost t r == 0)) as [Hc|Hc].
    + right. rewrite ldiv_zero by done. eauto.
    + left. rewrite ldiv_nonzero by done. eauto.
  - exists (r0, 2024%Z). split.
    + apply elem_of_list_prod. split; [done|apply years_nonempty].
    + intros b. simpl. destruct (Hp r0 Hr0) as [Ht Hs].
      rewrite investment_elem
        by (by apply renewables_present_filtered || apply years_nonempty).
      rewrite result_bind_inr, getitem_capital_cost, result_bind_inr by done.
      by rewrite ldiv_zero.
Qed.

(** *** The emissions target and constraint *)

Lemma total_emission_target_run (p : Q) :
  total_emission_target t p =
    inr (0.43 * p * 1e6
         + pysum (map (λ s, emissionFactor t s
                            * (targetCapacity t s - currentCapacity t s)
                            * capacityFactor s * 8760 / 1e3) (filtered_sources t))).
Proof.
  unfold total_emission_target.
  rewrite (mapM_inr_ext _ (λ s, emissionFactor t s
                                * (targetCapacity t s - currentCapacity t s)
                                * capacityFactor s * 8760 / 1e3)); [reflexivity|].
  intros s [Hs Ht]%elem_of_filtered_sources.
  by rewrite getitem_emission_factors, getitem_target_capacity,
    getitem_current_capacity, (getitem_capacity_factors t).
Qed.

Lemma emissions_lhs_run :
  (∀ s, s ∈ filtered_sources t → ¬ capitalCost t s == 0) →
  emissions_lhs t = inr (lhs (Emissions_constraint t)).
Proof.
  intros Hnz. unfold emissions_lhs.
  rewrite (mapM_inr_ext _ (λ k, lscale (emissionFactor t k.1)
                                  (lscale (1 / capitalCost t k.1)
                                     (of_var (Investment k.1 k.2)))));
    [reflexivity|].
  intros [s y] [Hs Hy]%elem_of_list_prod. simpl.
  pose proof Hs as [Hs' Ht]%elem_of_filtered_sources.
  rewrite investment_elem by done.
  rewrite result_bind_inr, getitem_capital_cost, result_bind_inr by done.
  rewrite ldiv_nonzero, result_bind_inr by auto.
  by rewrite getitem_emission_factors.
Qed.

Lemma emissions_lhs_zero :
  (∃ s, s ∈ filtered_sources t ∧ capitalCost t s == 0) →
  emissions_lhs t = inl ZeroDivisionError.
Proof.
  intros (s0 & Hs0 & Hz). unfold emissions_lhs.
  destruct (mapM_fails (λ e, e = ZeroDivisionError)
              (λ k : string * Z,
                 v ← investment t k.1 k.2;
                 cc ← getitem (capital_cost t) k.1;
                 e ← ldiv (of_var v) cc;
                 ef ← getitem (emission_factors t) k.1;
                 mret (lscale ef e)) (list_prod (filtered_sources t) years))
    as (e & -> & ->); [| |reflexivity].
  - intros [s y] [Hs Hy]%elem_of_list_prod. simpl.
    pose proof Hs as [Hs' Ht]%elem_of_filtered_sources.
    rewrite investment_elem by done.
    rewrite result_bind_inr, getitem_capital_cost, result_bind_inr by done.
    destruct (decide (capitalCost t s == 0)) as [Hc|Hc].
    + right. rewrite ldiv_zero by done. eauto.
    + left. rewrite ldiv_nonzero, result_bind_inr by done.
      rewrite getitem_emission_factors by done. eauto.
  - exists (s0, 2024%Z). split.
    + apply elem_of_list_prod. split; [done|apply years_nonempty].
    + intros b. simpl.
      pose proof Hs0 as [Hs' Ht]%elem_of_filtered_sources.
      rewrite investment_elem by (done || apply years_nonempty).
      rewrite result_bind_inr, getitem_capital_cost, result_bind_inr by done.
      by rewrite ldiv_zero.
Qed.

End Renewables.


(** ** The four ways the construction can end *)

Section Build_results.
Context (t : Tables).

Lemma build_missing_renewable :
  NoDup (filtered_sources t) → ¬ renewables_present t →
  ∃ e, build t empty_model = (model_after_budgets t, inl e) ∧ renewable_key_error e.
Proof.
  intros Hnd Hn. rewrite build_prefix by done.
  destruct (renewable_targets_missing t Hn) as (e & HP & [He|(c & Hc & He)]);
    exists e; (split; [|done]);
    unfold add_renewable_constraints, mbind, Build_bind, py.
  - by rewrite He.
  - by rewrite Hc, He.
Qed.

Lemma add_renewable_constraints_zero (m : Model) :
  renewables_present t →
  (∃ r, r ∈ renewable_sources ∧ capitalCost t r == 0) →
  add_renewable_constraints t m = (m, inl ZeroDivisionError).
Proof.
  intros Hp Hz. unfold add_renewable_constraints, mbind, Build_bind, py.
  rewrite total_renewable_capacity_target_run,
    total_renewable_production_target_run by done.
  by rewrite renewable_capacity_constr_zero.
Qed.

Lemma add_renewable_constraints_run (m : Model) :
  renewables_present t →
  (∀ r, r ∈ renewable_sources → ¬ capitalCost t r == 0) →
  add_renewable_constraints t m =
    (add_constrs [Renewable_Capacity_constraint t;
                  Renewable_Production_constraint t] m,
     inr (renewable_capacity_target t, renewable_production_target t)).
Proof.
  intros Hp Hnz. unfold add_renewable_constraints, mbind, Build_bind, py.
  rewrite total_renewable_capacity_target_run,
    total_renewable_production_target_run by done.
  rewrite renewable_capacity_constr_run, renewable_production_constr_run by done.
  unfold addConstr, add_constrs, mret, Build_ret. simpl. by rewrite <- app_assoc.
Qed.

Lemma add_emissions_constraint_zero (m : Model) (p : Q) :
  (∃ s, s ∈ filtered_sources t ∧ capitalCost t s == 0) →
  add_emissions_constraint t p m = (m, inl ZeroDivisionError).
Proof.
  intros Hz. unfold add_emissions_constraint, mbind, Build_bind, py.
  rewrite total_emission_target_run. unfold emissions_constr.
  by rewrite emissions_lhs_zero.
Qed.

Lemma add_emissions_constraint_run (m : Model) :
  costs_nonzero t →
  add_emissions_constraint t (renewable_production_target t) m =
    (add_constrs [Emissions_constraint t] m, inr (emissions_target t)).
Proof.
  intros Hnz. unfold add_emissions_constraint, mbind, Build_bind, py.
  rewrite total_emission_target_run. unfold emissions_constr.
  by rewrite emissions_lhs_run.
Qed.

Lemma build_zero_renewable :
  NoDup (filtered_sources t) → renewables_present t →
  (∃ r, r ∈ renewable_sources ∧ capitalCost t r == 0) →
  build t empty_model = (model_after_budgets t, inl ZeroDivisionError).
Proof.
  intros Hnd Hp Hz. rewrite build_prefix by done. unfold mbind, Build_bind.
  by rewrite add_renewable_constraints_zero.
Qed.

Lemma build_zero_other :
  NoDup (filtered_sources t) → renewables_present t →
  (∀ r, r ∈ renewable_sources → ¬ capitalCost t r == 0) →
  (∃ s, s ∈ filtered_sources t ∧ capitalCost t s == 0) →
  build t empty_model =
    (add_constrs [Renewable_Capacity_constraint t;
                  Renewable_Production_constraint t] (model_after_budgets t),
     inl ZeroDivisionError).
Proof.
  intros Hnd Hp Hnz Hz. rewrite build_prefix by done. unfold mbind, Build_bind.
  rewrite add_renewable_constraints_run by done. simpl.
  by rewrite add_emissions_constraint_zero.
Qed.

Lemma build_ok :
  NoDup (filtered_sources t) → renewables_present t → costs_nonzero t →
  build t empty_model = (full_model t, inr (full_targets t)).
Proof.
  intros Hnd Hp Hnz. rewrite build_prefix by done. unfold mbind, Build_bind.
  rewrite add_renewable_constraints_run.
  - simpl. rewrite add_emissions_constraint_run by done.
    unfold mret, Build_ret, full_model, full_targets, add_constrs,
      model_after_budgets. simpl. by rewrite <- !app_assoc.
  - done.
  - intros r Hr. apply Hnz. by apply renewables_present_filtered.
Qed.

(** A construction that returns had no repeated filtered source, all
    renewables present and no zero capital cost, and returns the full
    model. *)
Lemma build_inr_inv (m : Model) (tg : Targets) :
  build t empty_model = (m, inr tg) →
  NoDup (filtered_sources t) ∧ renewables_present t ∧ costs_nonzero t
  ∧ m = full_model t ∧ tg = full_targets t.
Proof.
  intros Hb.
  destruct (decide (NoDup (filtered_sources t))) as [Hnd|Hnd].
  2:{ rewrite build_duplicate in Hb by done. congruence. }
  split; [done|].
  destruct (decide (Forall (λ r, is_Some (target_capacity t !! r) ∧ r ∈ sources t)
                      renewable_sources)) as [Hp|Hp].
  2:{ rewrite Forall_forall in Hp.
      destruct (build_missing_renewable Hnd Hp) as (e & He & _). congruence. }
  rewrite Forall_forall in Hp. change (renewables_present t) in Hp.
  destruct (decide (Forall (λ s, ¬ capitalCost t s == 0) (filtered_sources t)))
    as [Hnz|Hz].
  - rewrite Forall_forall in Hnz. rewrite build_ok in Hb by done.
    by injection Hb as <- <-.
  - apply not_Forall_Exists in Hz; [|intros ?; apply _].
    apply Exists_exists in Hz as (s & Hs & Hz). simpl in Hz.
    apply dec_stable in Hz.
    destruct (decide (Forall (λ s, ¬ capitalCost t s == 0) renewable_sources))
      as [Hrnz|Hrz].
    + rewrite Forall_forall in Hrnz. rewrite build_zero_other in Hb by eauto.
      congruence.
    + apply not_Forall_Exists in Hrz; [|intros ?; apply _].
      apply Exists_exists in Hrz as (r & Hr & Hrz). simpl in Hrz.
      apply dec_stable in Hrz. rewrite build_zero_renewable in Hb by eauto.
      congruence.
Qed.

End Build_results.


(** ** The report returns *)

Section Report_runs.
Context (t : Tables) (tg : Targets) (X : Var → Q).

Lemma total_investment_made_run :
  total_investment_made t X = inr (total_investment_value t X).
Proof.
  unfold total_investment_made.
  rewrite (mapM_inr_ext _ (λ k, X (Investment k.1 k.2))); [reflexivity|].
  intros [s y] [Hs Hy]%elem_of_list_prod. simpl. by rewrite investment_elem.
Qed.

Lemma source_investment_run (s : string) :
  s ∈ filtered_sources t → source_investment t X s = inr (source_total X s).
Proof.
  intros Hs. unfold source_investment.
  rewrite (mapM_inr_ext _ (λ y, X (Investment s y)))
    by (intros y Hy; by rewrite investment_elem).
  reflexivity.
Qed.

Lemma source_lines_run (s : string) :
  s ∈ filtered_sources t → source_lines t X s = inr (source_block X s).
Proof.
  intros Hs. unfold source_lines, source_investment.
  rewrite (mapM_inr_ext _ (λ y, X (Investment s y)))
    by (intros y Hy; by rewrite investment_elem).
  rewrite !result_bind_inr. fold (source_total X s).
  rewrite (mapM_inr_ext _ (source_year_block X s)).
  2:{ intros y Hy. unfold source_year_lines. by rewrite investment_elem. }
  rewrite slack_target_elem by done. unfold source_block.
  unfold mret, result_ret, mbind, result_bind.
  by destruct (Qgtb (source_total X s) 0).
Qed.

Lemma year_lines_run (y : Z) :
  y ∈ years → year_lines t X y = inr (year_block t X y).
Proof.
  intros Hy. unfold year_lines.
  rewrite (mapM_inr_ext _ (λ s, X (Investment s y)))
    by (intros s Hs; by rewrite investment_elem).
  by rewrite slack_min_budget_elem, slack_max_budget_elem.
Qed.

Lemma renewable_capacity_achieved_run :
  renewables_present t → costs_nonzero t →
  renewable_capacity_achieved t X = inr (capacity_achieved t X).
Proof.
  intros Hp Hnz. unfold renewable_capacity_achieved.
  rewrite (mapM_inr_ext _ (λ k, X (Investment k.1 k.2) / capitalCost t k.1));
    [reflexivity|].
  intros [r y] [Hr Hy]%elem_of_list_prod. simpl.
  pose proof (renewables_present_filtered t r Hp Hr) as Hf.
  pose proof Hf as [Hs Ht]%elem_of_filtered_sources.
  rewrite investment_elem, result_bind_inr by done.
  rewrite getitem_capital_cost, result_bind_inr by done.
  by apply pydiv_nonzero, Hnz.
Qed.

Lemma renewable_production_achieved_run :
  renewables_present t → costs_nonzero t →
  renewable_production_achieved t X = inr (production_achieved t X).
Proof.
  intros Hp Hnz. unfold renewable_production_achieved.
  rewrite (mapM_inr_ext _ (λ k, X (Investment k.1 k.2) / capitalCost t k.1
                                * capacityFactor k.1 * 8760 / 1e6));
    [reflexivity|].
  intros [r y] [Hr Hy]%elem_of_list_prod. simpl.
  pose proof (renewables_present_filtered t r Hp Hr) as Hf.
  pose proof Hf as [Hs Ht]%elem_of_filtered_sources.
  rewrite investment_elem, result_bind_inr by done.
  rewrite getitem_capital_cost, result_bind_inr by done.
  rewrite pydiv_nonzero, result_bind_inr by auto.
  by rewrite (getitem_capacity_factors t).
Qed.

Lemma emissions_produced_run :
  costs_nonzero t → emissions_produced t X = inr (emissions_value t X).
Proof.
  intros Hnz. unfold emissions_produced.
  rewrite (mapM_inr_ext _ (λ k, X (Investment k.1 k.2) / capitalCost t k.1
                                * emissionFactor t k.1 * 8760));
    [reflexivity|].
  intros [s y] [Hf Hy]%elem_of_list_prod. simpl.
  pose proof Hf as [Hs Ht]%elem_of_filtered_sources.
  rewrite investment_elem, result_bind_inr by done.
  rewrite getitem_capital_cost, result_bind_inr by done.
  rewrite pydiv_nonzero, result_bind_inr by auto.
  by rewrite getitem_emission_factors.
Qed.

(** After a construction that returned, the report prints all its lines. *)
Lemma report_run :
  renewables_present t → costs_nonzero t →
  report t tg X = inr (report_lines t tg X).
Proof.
  intros Hp Hnz. unfold report.
  rewrite total_investment_made_run, result_bind_inr.
  rewrite (mapM_inr_ext _ (source_block X)) by apply source_lines_run.
  rewrite result_bind_inr.
  rewrite (mapM_inr_ext _ (year_block t X)) by apply year_lines_run.
  rewrite result_bind_inr.
  unfold renewable_lines, emissions_lines.
  rewrite renewable_capacity_achieved_run, renewable_production_achieved_run,
    emissions_produced_run by done.
  reflexivity.
Qed.

End Report_runs.

(** The run on tables with no repeated filtered source, all renewables
    present and no zero capital cost: the solver is called on the full
    model, and its answer decides what is printed. *)
Lemma main_run (optimize : Model → Status * (Var → Q)) (t : Tables) :
  NoDup (filtered_sources t) → renewables_present t → costs_nonzero t →
  main optimize t =
    match optimize (full_model t) with
    | (OPTIMAL, X) => Printed (report_lines t (full_targets t) X)
    | (NOT_OPTIMAL code, _) => Unsolved code
    end.
Proof.
  intros Hnd Hp Hnz. unfold main. rewrite build_ok by done.
  destruct (optimize (full_model t)) as [[|code] X]; [|reflexivity].
  by rewrite report_run.
Qed.


(** The sample tables name each of their sources once, save
    [duplicate_tables]. *)
Lemma balanced_tables_NoDup : NoDup (filtered_sources balanced_tables).
Proof. by_computation. Qed.

Lemma coal_tables_NoDup : NoDup (filtered_sources coal_tables).
Proof. by_computation. Qed.

Lemma retire_tables_NoDup : NoDup (filtered_sources retire_tables).
Proof. by_computation. Qed.


Lemma no_biomass_tables_NoDup : NoDup (filtered_sources no_biomass_tables).
Proof. by_computation. Qed.

Lemma duplicate_tables_dup : ¬ NoDup (filtered_sources duplicate_tables).
Proof. by_computation. Qed.

Lemma holdsb_spec (X : Var → Q) (c : Constr) : holdsb X c = true ↔ holds X c.
Proof. unfold holdsb, holds. destruct (sense c); apply Qle_bool_iff. Qed.

Lemma feasibleb_spec (m : Model) (X : Var → Q) :
  feasibleb m X = true ↔ feasible m X.
Proof.
  unfold feasibleb, feasible.
  rewrite andb_true_iff, !forallb_forall, !Forall_forall.
  split; intros [Hv Hc]; split; intros x Hx.
  - apply Qle_bool_iff, Hv. by apply list_elem_of_In.
  - apply holdsb_spec, Hc. by apply list_elem_of_In.
  - apply Qle_bool_iff, Hv. by apply list_elem_of_In.
  - apply holdsb_spec, Hc. by apply list_elem_of_In.
Qed.

(** ** The model at the end of the construction, once the variables are created *)

Lemma build_cases (t : Tables) :
  NoDup (filtered_sources t) →
  ∃ cs r, build t empty_model = (add_constrs cs (model_after_budgets t), r)
          ∧ (cs = [] ∨ cs = [Renewable_Capacity_constraint t;
                             Renewable_Production_constraint t]
             ∨ cs = [Renewable_Capacity_constraint t;
                     Renewable_Production_constraint t;
                     Emissions_constraint t]).
Proof.
  intros Hnd. destruct (decide (renewables_present t)) as [Hp|Hp].
  2:{ destruct (build_missing_renewable t Hnd Hp) as (e & He & _).
      exists [], (inl e). rewrite add_constrs_nil. split; [done|by left]. }
  destruct (decide (costs_nonzero t)) as [Hnz|Hz].
  { exists [Renewable_Capacity_constraint t; Renewable_Production_constraint t;
            Emissions_constraint t], (inr (full_targets t)).
    rewrite build_ok by done. split; [|auto].
    unfold full_model, add_constrs, model_after_budgets. simpl.
    by rewrite <- !app_assoc. }
  assert (∃ s, s ∈ filtered_sources t ∧ capitalCost t s == 0) as Hs.
  { unfold costs_nonzero in Hz. rewrite <- Forall_forall in Hz.
    apply not_Forall_Exists in Hz; [|intros ?; apply _].
    apply Exists_exists in Hz as (s & Hs & Hz). simpl in Hz.
    apply dec_stable in Hz. eauto. }
  destruct (decide (Forall (λ s, ¬ capitalCost t s == 0) renewable_sources))
    as [Hrnz|Hrz].
  - rewrite Forall_forall in Hrnz. rewrite build_zero_other by done. eauto 6.
  - apply not_Forall_Exists in Hrz; [|intros ?; apply _].
    apply Exists_exists in Hrz as (r & Hr & Hrz). simpl in Hrz.
    apply dec_stable in Hrz. rewrite build_zero_renewable by eauto.
    exists [], (inl ZeroDivisionError). rewrite add_constrs_nil.
    split; [done|by left].
Qed.

Lemma build_objective (t : Tables) :
  NoDup (filtered_sources t) →
  objective (build t empty_model).1 = objective_function t.
Proof. intros Hnd. destruct (build_cases t Hnd) as (cs & r & -> & _). reflexivity. Qed.

Lemma build_vars (t : Tables) :
  NoDup (filtered_sources t) → vars (build t empty_model).1 = all_vars t.
Proof. intros Hnd. destruct (build_cases t Hnd) as (cs & r & -> & _). reflexivity. Qed.

Lemma build_constrs_prefix (t : Tables) :
  NoDup (filtered_sources t) →
  target_constraints t ++ budget_constraints t
    `prefix_of` constrs (build t empty_model).1.
Proof.
  intros Hnd. destruct (build_cases t Hnd) as (cs & r & -> & _). simpl.
  by apply prefix_app_r.
Qed.

Lemma elem_of_target_constraints (t : Tables) (s : string) :
  s ∈ filtered_sources t → Target_constraint t s ∈ target_constraints t.
Proof. intros Hs. unfold target_constraints. by apply list_elem_of_fmap_2. Qed.

Lemma elem_of_budget_constraints (t : Tables) (y : Z) :
  y ∈ years →
  Min_Budget_constraint t y ∈ budget_constraints t
  ∧ Max_Budget_constraint t y ∈ budget_constraints t.
Proof.
  intros Hy. unfold budget_constraints.
  rewrite !list_elem_of_In, !in_flat_map. rewrite list_elem_of_In in Hy.
  split; exists y; simpl; auto.
Qed.

Lemma elem_of_prefix {A} (l k : list A) (x : A) : l `prefix_of` k → x ∈ l → x ∈ k.
Proof. intros [k' ->] Hx. apply elem_of_app. by left. Qed.

(** ** The value of the objective *)

Lemma eval_objective_function (t : Tables) (X : Var → Q) :
  eval X (objective_function t) ==
    Qsum (λ s, Qsum (λ y, X (Investment s y)) years) (filtered_sources t)
    + penalty_factor
      * (Qsum (λ s, X (Slack_Target s)) (filtered_sources t)
         + Qsum (λ y, X (Slack_Min_Budget y)) years
         + Qsum (λ y, X (Slack_Max_Budget y)) years
         + X Slack_Renewable_Capacity
         + X Slack_Renewable_Production
         + X Slack_Emissions).
Proof.
  unfold objective_function.
  rewrite eval_ladd, eval_lscale, !eval_ladd, !eval_quicksum_map, !eval_of_var.
  rewrite (Qsum_ext _ (λ k, X (Investment k.1 k.2)))
    by (intros; apply eval_of_var).
  rewrite (Qsum_prod (λ k, X (Investment k.1 k.2))).
  rewrite (Qsum_ext (λ s, eval X (of_var (Slack_Target s))) (λ s, X (Slack_Target s)))
    by (intros; apply eval_of_var).
  rewrite (Qsum_ext (λ y, eval X (ladd _ _))
             (λ y, X (Slack_Min_Budget y) + X (Slack_Max_Budget y)))
    by (intros; by rewrite eval_ladd, !eval_of_var).
  rewrite Qsum_plus. simpl. lra.
Qed.


(** ** The goals table and the filtered sources *)

Lemma goal_mappings_recognized (g s : string) :
  goal_mappings !! g = Some s ↔ (g, s) ∈ recognized_goals.
Proof.
  change goal_mappings with (list_to_map recognized_goals : gmap string string).
  symmetry. apply elem_of_list_to_map. by_computation.
Qed.

Lemma target_capacity_lookup (t : Tables) (s : string) :
  target_capacity t !! s =
    (λ row, Target_Value row * 1000) <$>
      last (filter (λ row, goal_mappings !! Goal row = Some s) (goals_data t)).
Proof.
  rewrite target_capacity_rows, lookup_foldl_insert_row, lookup_empty.
  by destruct (last _).
Qed.

Lemma target_capacity_skips (t : Tables) (before after : list GoalRow) (row : GoalRow) :
  goal_mappings !! Goal row = None →
  target_capacity (with_goals t (before ++ row :: after)) =
  target_capacity (with_goals t (before ++ after)).
Proof.
  intros Hrow. unfold target_capacity, with_goals. simpl.
  rewrite !foldl_app. simpl. by rewrite Hrow.
Qed.

(** C9.  The target-capacity map has an entry exactly for the sources named
    by a goal row with one of the seven recognized labels; the entry is the
    Target Value of the (last) such row times 1000; a row with any other
    label is skipped without an error (the map is the same with the row
    removed); and the filtered sources are exactly the sources of the cost
    table that have an entry in the map. *)
Theorem target_capacity_from_recognized_goals (t : Tables) :
  (∀ g s, goal_mappings !! g = Some s ↔ (g, s) ∈ recognized_goals)
  ∧ (∀ s, is_Some (target_capacity t !! s) ↔
          ∃ row, row ∈ goals_data t ∧ goal_mappings !! Goal row = Some s)
  ∧ (∀ s, target_capacity t !! s =
          (λ row, Target_Value row * 1000) <$>
            last (filter (λ row, goal_mappings !! Goal row = Some s) (goals_data t)))
  ∧ (∀ before row after,
       goal_mappings !! Goal row = None →
       target_capacity (with_goals t (before ++ row :: after)) =
       target_capacity (with_goals t (before ++ after)))
  ∧ (∀ s, s ∈ filtered_sources t ↔
          s ∈ map Source (emissions_data t) ∧ is_Some (target_capacity t !! s)).
Proof.
  split; [exact goal_mappings_recognized|].
  split; [intros s; rewrite target_capacity_rows; apply is_Some_foldl_insert_row|].
  split; [apply target_capacity_lookup|].
  split; [intros; by apply target_capacity_skips|].
  apply elem_of_filtered_sources.
Qed.

(** ** The objective *)

Lemma terms_quicksum (es : list LinExpr) :
  terms (quicksum es) = concat (map terms es).
Proof.
  unfold quicksum.
  assert (∀ a, terms (foldl ladd a es) = terms a ++ concat (map terms es)) as H.
  { induction es as [|e es IH]; intros a; simpl; [by rewrite app_nil_r|].
    rewrite IH. simpl. by rewrite <- app_assoc. }
  by rewrite H.
Qed.

Lemma terms_quicksum_map {A} (f : A → LinExpr) (l : list A) :
  terms (quicksum (map f l)) = flat_map (λ x, terms (f x)) l.
Proof.
  rewrite terms_quicksum. induction l as [|x l IH]; simpl; [reflexivity|].
  by rewrite IH.
Qed.

Lemma map_flat_map {A B C} (f : B → C) (g : A → list B) (l : list A) :
  map f (flat_map g l) = flat_map (λ x, map f (g x)) l.
Proof.
  induction l as [|x l IH]; simpl; [reflexivity|]. by rewrite map_app, IH.
Qed.

(** The terms of the objective, in the order gurobipy receives them. *)
Lemma objective_terms (t : Tables) :
  terms (objective_function t) =
    map (λ k, (1, Investment k.1 k.2)) (list_prod (filtered_sources t) years)
    ++ map (λ s, (penalty_factor * 1, Slack_Target s)) (filtered_sources t)
    ++ flat_map (λ y, [(penalty_factor * 1, Slack_Min_Budget y);
                       (penalty_factor * 1, Slack_Max_Budget y)]) years
    ++ [(penalty_factor * 1, Slack_Renewable_Capacity);
        (penalty_factor * 1, Slack_Renewable_Production);
        (penalty_factor * 1, Slack_Emissions)].
Proof.
  unfold objective_function. cbn [terms ladd lscale].
  rewrite !terms_quicksum_map. cbn [terms of_var ladd app].
  rewrite !flat_map_singleton, !map_app, map_map, map_flat_map.
  cbn [map fst snd]. by rewrite <- !app_assoc.
Qed.

Lemma const_quicksum_zero (es : list LinExpr) :
  Forall (λ e, const e == 0) es → const (quicksum es) == 0.
Proof.
  unfold quicksum.
  assert (∀ a, Forall (λ e, const e == 0) es →
               const (foldl ladd a es) == const a) as H.
  { induction es as [|e es IH]; intros a Hes; simpl; [reflexivity|].
    apply Forall_cons_1 in Hes as [He Hes]. rewrite IH by done. simpl. lra. }
  intros Hes. rewrite H by done. reflexivity.
Qed.

Lemma objective_const (t : Tables) : const (objective_function t) == 0.
Proof.
  unfold objective_function. cbn [const ladd lscale of_var].
  rewrite !const_quicksum_zero; [lra| | |].
  - apply Forall_forall. intros e (y & -> & _)%list_elem_of_fmap. simpl. lra.
  - apply Forall_forall. intros e (y & -> & _)%list_elem_of_fmap. reflexivity.
  - apply Forall_forall. intros e (y & -> & _)%list_elem_of_fmap. reflexivity.
Qed.

(** C8.  When no filtered source is repeated (otherwise the creation of the
    variables raises and no objective is set), the objective handed to the
    solver is the sum of the investment variables over every (source, year)
    pair plus 1.1 times the sum of every slack variable of the six families,
    with no constant and no other term: its terms are the investment
    variables with coefficient 1 followed by the slack variables with
    coefficient 1.1.  This holds also when the construction raises later. *)
Theorem objective_is_investment_plus_penalized_slack (t : Tables) (X : Var → Q) :
  NoDup (filtered_sources t) →
  eval X (objective (build t empty_model).1) ==
    Qsum (λ s, Qsum (λ y, X (Investment s y)) years) (filtered_sources t)
    + 1.1 * (Qsum (λ s, X (Slack_Target s)) (filtered_sources t)
             + Qsum (λ y, X (Slack_Min_Budget y)) years
             + Qsum (λ y, X (Slack_Max_Budget y)) years
             + X Slack_Renewable_Capacity
             + X Slack_Renewable_Production
             + X Slack_Emissions)
  ∧ const (objective (build t empty_model).1) == 0
  ∧ terms (objective (build t empty_model).1) =
      map (λ k, (1, Investment k.1 k.2)) (list_prod (filtered_sources t) years)
      ++ map (λ s, (1.1 * 1, Slack_Target s)) (filtered_sources t)
      ++ flat_map (λ y, [(1.1 * 1, Slack_Min_Budget y);
                         (1.1 * 1, Slack_Max_Budget y)]) years
      ++ [(1.1 * 1, Slack_Renewable_Capacity);
          (1.1 * 1, Slack_Renewable_Production);
          (1.1 * 1, Slack_Emissions)].
Proof.
  intros Hnd. rewrite build_objective by done. split; [|split].
  - apply eval_objective_function.
  - apply objective_const.
  - apply objective_terms.
Qed.

Lemma objective_is_investment_plus_penalized_slack_witness :
  NoDup (filtered_sources no_biomass_tables)
  ∧ const (objective (build no_biomass_tables empty_model).1) == 0.
Proof.
  split; [apply no_biomass_tables_NoDup|].
  exact (proj1 (proj2 (objective_is_investment_plus_penalized_slack
                         no_biomass_tables (λ _, 0) no_biomass_tables_NoDup))).
Defined.

(** ** The emissions constraint *)

Lemma eval_emissions_lhs (t : Tables) (X : Var → Q) :
  eval X (lhs (Emissions_constraint t)) ==
    Qsum (λ s, Qsum (λ y, X (Investment s y) / capitalCost t s * emissionFactor t s)
                    years) (filtered_sources t).
Proof.
  cbn [lhs Emissions_constraint]. rewrite eval_quicksum_map.
  rewrite <- (Qsum_prod (λ k, X (Investment k.1 k.2) / capitalCost t k.1
                              * emissionFactor t k.1)).
  apply Qsum_ext. intros k _. rewrite !eval_lscale, eval_of_var.
  unfold Qdiv. ring.
Qed.

Lemma renewable_production_target_spec (t : Tables) :
  renewable_production_target t == targetProduction t.
Proof.
  unfold renewable_production_target, targetProduction. rewrite pysum_map.
  apply Qsum_ext. intros s _. reflexivity.
Qed.

Lemma emissions_target_spec (t : Tables) : emissions_target t == emissionTarget t.
Proof.
  unfold emissions_target, emissionTarget.
  rewrite pysum_map, renewable_production_target_spec.
  apply Qplus_comp; [reflexivity|]. apply Qsum_ext. intros s _. reflexivity.
Qed.

(** C7.  When the construction returns, the last constraint of the model is
    named Emissions and states that the sum over the filtered sources and
    the years of Investment(s,y) / capitalCost[s] * emissionFactor[s] is at
    most emissionTarget + slack_emissions, with emissionTarget as the
    specification defines it from targetProduction. *)
Theorem emissions_constraint_as_specified (t : Tables) (m : Model) (tg : Targets) :
  build t empty_model = (m, inr tg) →
  ∃ c, last (constrs m) = Some c
       ∧ cname c = "Emissions"
       ∧ sense c = LE
       ∧ (∀ X, eval X (lhs c) ==
               Qsum (λ s, Qsum (λ y, X (Investment s y) / capitalCost t s
                                     * emissionFactor t s) years)
                    (filtered_sources t))
       ∧ (∀ X, eval X (rhs c) == emissionTarget t + X Slack_Emissions)
       ∧ emission_target tg == emissionTarget t
       ∧ production_target tg == targetProduction t.
Proof.
  intros (_ & _ & _ & -> & ->)%build_inr_inv.
  exists (Emissions_constraint t). split; [|split; [done|split; [done|]]].
  - unfold full_model. cbn [constrs]. by rewrite !app_assoc, last_snoc.
  - split; [apply eval_emissions_lhs|]. split; [|split].
    + intros X. cbn [rhs Emissions_constraint].
      rewrite eval_ladd, eval_of_const, eval_of_var, emissions_target_spec.
      reflexivity.
    + apply emissions_target_spec.
    + apply renewable_production_target_spec.
Qed.


(** ** The annual budget *)

Lemma total_investment_budget_value : total_investment_budget == 44 * 10^12.
Proof. reflexivity. Qed.

Lemma min_annual_budget_value : min_annual_budget == 0.8 * (44 * 10^12 / 7).
Proof. reflexivity. Qed.

Lemma max_annual_budget_value : max_annual_budget == 1.2 * (44 * 10^12 / 7).
Proof. reflexivity. Qed.

Lemma balanced_tables_present : renewables_present balanced_tables.
Proof. by_computation. Qed.

Lemma balanced_tables_nonzero : costs_nonzero balanced_tables.
Proof. by_computation. Qed.

(** C1, as stated, fails: on the sample tables the model holds the two
    budget constraints of 2024, and their bounds are not 0.8 and 1.2 times
    (44 * 10^11 / 7). *)
Lemma annual_budget_is_not_44e11 :
  Min_Budget_constraint balanced_tables 2024
    ∈ constrs (build balanced_tables empty_model).1
  ∧ Max_Budget_constraint balanced_tables 2024
    ∈ constrs (build balanced_tables empty_model).1
  ∧ ¬ const (rhs (Min_Budget_constraint balanced_tables 2024))
      == 0.8 * (44 * 10^11 / 7)
  ∧ ¬ const (rhs (Max_Budget_constraint balanced_tables 2024))
      == 1.2 * (44 * 10^11 / 7).
Proof.
  assert (2024%Z ∈ years) as Hy by apply years_nonempty.
  destruct (elem_of_budget_constraints balanced_tables 2024 Hy) as [Hmin Hmax].
  pose proof (build_constrs_prefix balanced_tables balanced_tables_NoDup) as Hpre.
  repeat split.
  - eapply elem_of_prefix; [exact Hpre|]. apply elem_of_app. by right.
  - eapply elem_of_prefix; [exact Hpre|]. apply elem_of_app. by right.
  - cbn [rhs Min_Budget_constraint const of_const].
    rewrite min_annual_budget_value. intros H. vm_compute in H. discriminate.
  - cbn [rhs Max_Budget_constraint const of_const ladd].
    rewrite max_annual_budget_value. intros H. vm_compute in H. discriminate.
Qed.

(** C1, amended.  The script's budget literal [44*10e11] is 44 * 10^12.  For
    every year of 2024-2030 and tables that repeat no filtered source (so
    that the variables are created), the model holds the min-budget
    constraint with right-hand side 0.8 * (44 * 10^12 / 7) and the max-budget
    constraint with bound 1.2 * (44 * 10^12 / 7) plus its slack, also when
    the construction raises later. *)
Theorem annual_budget_bounds (t : Tables) (y : Z) :
  NoDup (filtered_sources t) → y ∈ years →
  Min_Budget_constraint t y ∈ constrs (build t empty_model).1
  ∧ Max_Budget_constraint t y ∈ constrs (build t empty_model).1
  ∧ (∀ X, eval X (rhs (Min_Budget_constraint t y)) == 0.8 * (44 * 10^12 / 7))
  ∧ (∀ X, eval X (rhs (Max_Budget_constraint t y))
          == 1.2 * (44 * 10^12 / 7) + X (Slack_Max_Budget y))
  ∧ total_investment_budget == 44 * 10^12.
Proof.
  intros Hnd Hy.
  destruct (elem_of_budget_constraints t y Hy) as [Hmin Hmax].
  pose proof (build_constrs_prefix t Hnd) as Hpre.
  split; [|split; [|split; [|split]]].
  - eapply elem_of_prefix; [exact Hpre|]. apply elem_of_app. by right.
  - eapply elem_of_prefix; [exact Hpre|]. apply elem_of_app. by right.
  - intros X. cbn [rhs Min_Budget_constraint].
    by rewrite eval_of_const, min_annual_budget_value.
  - intros X. cbn [rhs Max_Budget_constraint].
    by rewrite eval_ladd, eval_of_const, eval_of_var, max_annual_budget_value.
  - apply total_investment_budget_value.
Qed.

Lemma annual_budget_bounds_witness :
  NoDup (filtered_sources coal_tables)
  ∧ 2024%Z ∈ years
  ∧ Min_Budget_constraint coal_tables 2024
      ∈ constrs (build coal_tables empty_model).1.
Proof.
  split; [apply coal_tables_NoDup|]. split; [apply years_nonempty|].
  apply (annual_budget_bounds coal_tables 2024);
    [apply coal_tables_NoDup|apply years_nonempty].
Defined.

(** ** A renewable source that is missing *)

(** C10, as stated, fails: in [duplicate_tables] biomass has no target
    capacity, yet the run does not reach the renewable targets.  Solar is
    listed twice, so the creation of the investment variables raises the
    [KeyError] of [Model.addVars] on duplicate keys, which names no renewable
    source, and leaves a model without a variable or a constraint. *)
Lemma duplicate_source_raises_before_renewable_targets :
  (∃ r, r ∈ renewable_sources
        ∧ (target_capacity duplicate_tables !! r = None
           ∨ r ∉ sources duplicate_tables))
  ∧ add_variables duplicate_tables empty_model = (empty_model, inl duplicate_keys)
  ∧ build duplicate_tables empty_model = (empty_model, inl duplicate_keys)
  ∧ ¬ renewable_key_error duplicate_keys
  ∧ vars empty_model = [] ∧ constrs empty_model = []
  ∧ ∀ optimize, main optimize duplicate_tables = Uncaught empty_model duplicate_keys.
Proof.
  split.
  { exists "Biomass". split; [by_computation|]. left. vm_compute. reflexivity. }
  split; [apply add_variables_duplicate, duplicate_tables_dup|].
  assert (build duplicate_tables empty_model = (empty_model, inl duplicate_keys))
    as Hb by apply build_duplicate, duplicate_tables_dup.
  split; [exact Hb|]. split; [|split; [reflexivity|split; [reflexivity|]]].
  - intros (r & _ & H). discriminate H.
  - intros optimize. unfold main. by rewrite Hb.
Qed.

(** C10, amended.  Let one of Solar, Wind, Hydropower, Biomass have no entry
    in the target-capacity map or no row in the cost table.  When no
    filtered source is repeated, the construction ends in an uncaught
    [KeyError] on a renewable source, raised by one of the two renewable
    targets: the model then holds the target and budget constraints only, no
    renewable constraint, and the solver is not called (the run ends the
    same way whatever the solver would answer).  When a filtered source is
    repeated, the run ends earlier, in the [KeyError] of [Model.addVars] on
    duplicate keys, with an empty model. *)
Theorem missing_renewable_raises_KeyError
    (optimize : Model → Status * (Var → Q)) (t : Tables) :
  (∃ r, r ∈ renewable_sources ∧ (target_capacity t !! r = None ∨ r ∉ sources t)) →
  (NoDup (filtered_sources t) →
   ∃ e, renewable_key_error e
        ∧ (total_renewable_capacity_target t = inl e
           ∨ ∃ c, total_renewable_capacity_target t = inr c
                  ∧ total_renewable_production_target t = inl e)
        ∧ build t empty_model = (model_after_budgets t, inl e)
        ∧ main optimize t = Uncaught (model_after_budgets t) e)
  ∧ (¬ NoDup (filtered_sources t) →
     build t empty_model = (empty_model, inl duplicate_keys)
     ∧ main optimize t = Uncaught empty_model duplicate_keys).
Proof.
  intros Hn%not_renewables_present. split.
  - intros Hnd.
    destruct (renewable_targets_missing t Hn) as (e & HP & He).
    exists e. split; [done|]. split; [done|].
    destruct (build_missing_renewable t Hnd Hn) as (e' & Hb & _).
    assert (e' = e) as ->.
    { revert Hb. rewrite build_prefix by done.
      unfold add_renewable_constraints, mbind, Build_bind, py.
      destruct He as [->|(c & -> & ->)]; congruence. }
    split; [done|]. unfold main. by rewrite Hb.
  - intros Hd. pose proof (build_duplicate t Hd) as Hb.
    split; [done|]. unfold main. by rewrite Hb.
Qed.

Lemma missing_renewable_raises_KeyError_witness :
  (∃ r, r ∈ renewable_sources
        ∧ (target_capacity no_biomass_tables !! r = None
           ∨ r ∉ sources no_biomass_tables))
  ∧ ∃ e, renewable_key_error e
         ∧ main (λ _, (OPTIMAL, λ _, 0)) no_biomass_tables
           = Uncaught (model_after_budgets no_biomass_tables) e.
Proof.
  assert (∃ r, r ∈ renewable_sources
               ∧ (target_capacity no_biomass_tables !! r = None
                  ∨ r ∉ sources no_biomass_tables)) as H.
  { exists "Biomass". split; [by_computation|]. left. vm_compute. reflexivity. }
  split; [exact H|].
  destruct (proj1 (missing_renewable_raises_KeyError (λ _, (OPTIMAL, λ _, 0))
                     no_biomass_tables H) no_biomass_tables_NoDup)
    as (e & HP & _ & _ & Hm).
  exists e. by split.
Defined.

(** ** A capital cost of zero *)






(** ** Target slack at an optimum *)

Lemma Qsum_lt {A} (f g : A → Q) (l : list A) (x0 : A) :
  (∀ x, x ∈ l → f x <= g x) → x0 ∈ l → f x0 < g x0 → Qsum f l < Qsum g l.
Proof.
  induction l as [|x l IH]; intros Hle Hx0 Hlt; [by apply not_elem_of_nil in Hx0|].
  simpl. assert (f x <= g x) by (apply Hle; left).
  assert (Qsum f l <= Qsum g l) by (apply Qsum_le; intros; apply Hle; by right).
  apply elem_of_cons in Hx0 as [<-|Hx0]; [lra|].
  assert (Qsum f l < Qsum g l) by (apply IH; [intros; apply Hle; by right|done..]).
  lra.
Qed.

Lemma Forall_terms_quicksum_map {A} (P : Q * Var → Prop) (f : A → LinExpr)
    (l : list A) :
  (∀ x, x ∈ l → Forall P (terms (f x))) → Forall P (terms (quicksum (map f l))).
Proof.
  intros H. rewrite terms_quicksum_map. apply Forall_forall.
  intros kv Hkv. apply list_elem_of_In, in_flat_map in Hkv as (x & Hx & Hkv).
  apply list_elem_of_In in Hx, Hkv.
  specialize (H x Hx). rewrite Forall_forall in H. by apply H.
Qed.

Lemma eval_without_target_slack (s : string) (X : Var → Q) (e : LinExpr) :
  no_target_slack e → eval (without_target_slack s X) e == eval X e.
Proof.
  intros He. apply eval_agree. intros [k v] Hkv.
  unfold no_target_slack in He. rewrite Forall_forall in He.
  specialize (He _ Hkv). simpl in *. destruct v; try reflexivity.
  by destruct (He s0).
Qed.

Section Sums_of_investments.
Context (t : Tables).

Lemma investment_sum_source_terms (s : string) :
  Forall (λ kv, kv.1 == 1 ∧ ∃ y, kv.2 = Investment s y ∧ kv.2 ∈ all_vars t)
         (terms (investment_sum_source t s)).
Proof.
  unfold investment_sum_source. apply Forall_terms_quicksum_map.
  intros [s' y] [Hs Hk]%list_elem_of_filter. simpl in *. subst s'.
  repeat constructor. exists y. split; [done|].
  unfold all_vars. apply elem_of_app. left.
  by apply (list_elem_of_fmap_2 (λ k, Investment k.1 k.2) _ (s, y)).
Qed.

Lemma investment_sum_year_terms (y : Z) :
  Forall (λ kv, kv.1 == 1 ∧ ∃ s, kv.2 = Investment s y ∧ kv.2 ∈ all_vars t)
         (terms (investment_sum_year t y)).
Proof.
  unfold investment_sum_year. apply Forall_terms_quicksum_map.
  intros [s y'] [Hs Hk]%list_elem_of_filter. simpl in *. subst y'.
  repeat constructor. exists s. split; [done|].
  unfold all_vars. apply elem_of_app. left.
  by apply (list_elem_of_fmap_2 (λ k, Investment k.1 k.2) _ (s, y)).
Qed.

(** Under non-negative values a sum of investments is non-negative. *)
Lemma eval_investment_sum_source_nonneg (X : Var → Q) (s : string) :
  Forall (λ v, 0 <= X v) (all_vars t) → 0 <= eval X (investment_sum_source t s).
Proof.
  intros HX. rewrite Forall_forall in HX.
  pose proof (investment_sum_source_terms s) as Ht.
  assert (const (investment_sum_source t s) == 0) as Hc.
  { unfold investment_sum_source. apply const_quicksum_zero, Forall_forall.
    by intros e (k & -> & _)%list_elem_of_fmap. }
  unfold eval. rewrite Hc.
  induction Ht as [|kv l (Hk & y & Hv & Hin) _ IH]; simpl; [lra|].
  rewrite Hk. specialize (HX _ Hin). lra.
Qed.

End Sums_of_investments.

Section No_target_slack.
Context (t : Tables).

Lemma no_target_slack_investment_sum_source (s : string) :
  no_target_slack (investment_sum_source t s).
Proof.
  eapply Forall_impl; [apply investment_sum_source_terms|].
  intros kv (_ & y & -> & _) s'. discriminate.
Qed.

Lemma no_target_slack_investment_sum_year (y : Z) :
  no_target_slack (investment_sum_year t y).
Proof.
  eapply Forall_impl; [apply investment_sum_year_terms|].
  intros kv (_ & s & -> & _) s'. discriminate.
Qed.

Lemma no_target_slack_ladd (a b : LinExpr) :
  no_target_slack a → no_target_slack b → no_target_slack (ladd a b).
Proof. intros Ha Hb. unfold no_target_slack. simpl. by apply Forall_app. Qed.

Lemma no_target_slack_lscale (c : Q) (e : LinExpr) :
  no_target_slack e → no_target_slack (lscale c e).
Proof.
  unfold no_target_slack. simpl. intros He. apply Forall_fmap.
  eapply Forall_impl; [exact He|]. by intros [k v].
Qed.

Lemma no_target_slack_of_var (v : Var) :
  (∀ s, v ≠ Slack_Target s) → no_target_slack (of_var v).
Proof. intros Hv. by repeat constructor. Qed.

Lemma no_target_slack_of_const (c : Q) : no_target_slack (of_const c).
Proof. constructor. Qed.

Lemma no_target_slack_quicksum_map {A} (f : A → LinExpr) (l : list A) :
  (∀ x, no_target_slack (f x)) → no_target_slack (quicksum (map f l)).
Proof. intros H. apply Forall_terms_quicksum_map. intros x _. apply H. Qed.

End No_target_slack.

#[global] Hint Resolve no_target_slack_investment_sum_source
  no_target_slack_investment_sum_year no_target_slack_ladd
  no_target_slack_lscale no_target_slack_of_const
  no_target_slack_quicksum_map : lp.

Lemma holds_without_target_slack (s : string) (X : Var → Q) (c : Constr) :
  no_target_slack (lhs c) → no_target_slack (rhs c) →
  holds X c → holds (without_target_slack s X) c.
Proof.
  intros Hl Hr. unfold holds.
  destruct (sense c); by rewrite !eval_without_target_slack.
Qed.

Lemma without_target_slack_nonneg (s : string) (X : Var → Q) (v : Var) :
  0 <= X v → 0 <= without_target_slack s X v.
Proof.
  intros H. destruct v; simpl; try done. destruct (String.eqb _ _); [lra|done].
Qed.

Ltac unfold_constraint :=
  cbn [lhs rhs sense Target_constraint Min_Budget_constraint
       Max_Budget_constraint Renewable_Capacity_constraint
       Renewable_Production_constraint Emissions_constraint].

Lemma no_target_slack_budget (t : Tables) (y : Z) :
  (no_target_slack (lhs (Min_Budget_constraint t y))
   ∧ no_target_slack (rhs (Min_Budget_constraint t y)))
  ∧ (no_target_slack (lhs (Max_Budget_constraint t y))
     ∧ no_target_slack (rhs (Max_Budget_constraint t y))).
Proof.
  repeat split; unfold_constraint; auto with lp;
    (apply no_target_slack_ladd; [auto with lp|]);
    by apply no_target_slack_of_var.
Qed.

Lemma no_target_slack_renewable (t : Tables) :
  (no_target_slack (lhs (Renewable_Capacity_constraint t))
   ∧ no_target_slack (rhs (Renewable_Capacity_constraint t)))
  ∧ (no_target_slack (lhs (Renewable_Production_constraint t))
     ∧ no_target_slack (rhs (Renewable_Production_constraint t))).
Proof.
  repeat split; unfold_constraint; auto with lp;
    (apply no_target_slack_ladd; [|by apply no_target_slack_of_var]);
    apply no_target_slack_quicksum_map; intros k;
    repeat apply no_target_slack_lscale; by apply no_target_slack_of_var.
Qed.

Lemma no_target_slack_emissions (t : Tables) :
  no_target_slack (lhs (Emissions_constraint t))
  ∧ no_target_slack (rhs (Emissions_constraint t)).
Proof.
  split; unfold_constraint.
  - apply no_target_slack_quicksum_map; intros k;
      repeat apply no_target_slack_lscale; by apply no_target_slack_of_var.
  - apply no_target_slack_ladd; [auto with lp|]. by apply no_target_slack_of_var.
Qed.

(** Dropping the target slack of a source whose target constraint has
    right-hand side 0 keeps an assignment feasible. *)
Lemma feasible_without_target_slack (t : Tables) (s : string) (X : Var → Q) :
  targetCapacity t s == currentCapacity t s →
  feasible (full_model t) X → feasible (full_model t) (without_target_slack s X).
Proof.
  intros Hbal [Hv Hc]. split.
  - eapply Forall_impl; [exact Hv|]. intros v. apply without_target_slack_nonneg.
  - revert Hc. unfold full_model. cbn [constrs vars] in *.
    rewrite !Forall_app. intros (Ht & Hb & Hr & He). repeat split.
    + (* target constraints *)
      unfold target_constraints in *. rewrite Forall_fmap in *.
      eapply Forall_impl; [exact Ht|]. intros s' Hs'. simpl in *.
      unfold holds in *. cbn [sense lhs rhs Target_constraint] in *.
      rewrite eval_ladd, eval_of_var, eval_of_const in *.
      rewrite eval_without_target_slack by auto with lp.
      simpl. destruct (String.eqb_spec s' s) as [->|Hne]; [|done].
      pose proof (eval_investment_sum_source_nonneg t X s Hv).
      rewrite Hbal. lra.
    + (* budget constraints *)
      unfold budget_constraints in *. apply Forall_forall.
      rewrite Forall_forall in Hb. intros c Hc.
      pose proof Hc as Hc'.
      apply list_elem_of_In, in_flat_map in Hc' as (y & _ & Hy).
      destruct (no_target_slack_budget t y) as [[? ?] [? ?]].
      destruct Hy as [<-|[<-|[]]];
        (apply holds_without_target_slack; [done|done|by apply Hb]).
    + (* renewable constraints *)
      destruct (no_target_slack_renewable t) as [[? ?] [? ?]].
      apply Forall_cons_1 in Hr as [Hcap Hr].
      apply Forall_cons_1 in Hr as [Hprod _].
      repeat constructor; by apply holds_without_target_slack.
    + (* emissions constraint *)
      destruct (no_target_slack_emissions t) as [? ?].
      apply Forall_cons_1 in He as [Hem _].
      repeat constructor; by apply holds_without_target_slack.
Qed.

(** ... and lowers the objective by 1.1 times the slack dropped, or more. *)
Lemma objective_without_target_slack (t : Tables) (s : string) (X : Var → Q) :
  s ∈ filtered_sources t →
  Forall (λ v, 0 <= X v) (all_vars t) →
  0 < X (Slack_Target s) →
  eval (without_target_slack s X) (objective_function t)
  < eval X (objective_function t).
Proof.
  intros Hs Hv Hpos. rewrite !eval_objective_function.
  assert (Qsum (λ s', without_target_slack s X (Slack_Target s')) (filtered_sources t)
          < Qsum (λ s', X (Slack_Target s')) (filtered_sources t)) as Hlt.
  { apply (Qsum_lt _ _ _ s); [|done|].
    - intros s' Hs'. simpl. destruct (String.eqb s' s); [|lra].
      rewrite Forall_forall in Hv. apply Hv. unfold all_vars.
      apply elem_of_app. right. apply elem_of_app. left.
      by apply list_elem_of_fmap_2.
    - simpl. by rewrite String.eqb_refl. }
  cbn [without_target_slack] in *. unfold penalty_factor. lra.
Qed.

(** C3, amended.  When the target capacity of every filtered source equals
    its current capacity and the construction returns, every target
    constraint is in the model with right-hand side 0, and every
    minimum-cost feasible assignment has zero target slack for every
    filtered source.  (Nothing is said of the total investment: the
    min-budget constraints are cheaper to meet by investment than by
    slack.) *)
Theorem balanced_targets_need_no_target_slack
    (t : Tables) (m : Model) (tg : Targets) :
  (∀ s, s ∈ filtered_sources t → targetCapacity t s == currentCapacity t s) →
  build t empty_model = (m, inr tg) →
  (∀ s, s ∈ filtered_sources t →
        Target_constraint t s ∈ constrs m
        ∧ ∀ X, eval X (rhs (Target_constraint t s)) == 0)
  ∧ (∀ X, optimal m X → ∀ s, s ∈ filtered_sources t → X (Slack_Target s) == 0).
Proof.
  intros Hbal (_ & _ & _ & -> & ->)%build_inr_inv. split.
  - intros s Hs. split.
    + unfold full_model. cbn [constrs]. apply elem_of_app. left.
      by apply elem_of_target_constraints.
    + intros X. cbn [rhs Target_constraint]. rewrite eval_of_const, Hbal by done.
      lra.
  - intros X [Hfeas Hopt] s Hs.
    pose proof Hfeas as [Hv _]. cbn [vars full_model] in Hv.
    assert (0 <= X (Slack_Target s)) as Hge.
    { rewrite Forall_forall in Hv. apply Hv. unfold all_vars.
      apply elem_of_app. right. apply elem_of_app. left.
      by apply list_elem_of_fmap_2. }
    destruct (Qeq_dec (X (Slack_Target s)) 0) as [Hz|Hnz]; [done|].
    assert (0 < X (Slack_Target s)) as Hpos by lra.
    pose proof (feasible_without_target_slack t s X (Hbal s Hs) Hfeas) as Hfeas'.
    pose proof (Hopt _ Hfeas') as Hle.
    pose proof (objective_without_target_slack t s X Hs Hv Hpos) as Hlt.
    cbn [objective full_model] in Hle. lra.
Qed.


(** ** Optima of the sample programs *)

(** Turn [H : feasible (full_model t) Y] into the list of its linear
    inequalities, and the objective of the model into its explicit sum. *)
Ltac explicit_program t H :=
  let m := eval vm_compute in (full_model t) in
  replace (full_model t) with m in * by (vm_compute; reflexivity);
  let Hv := fresh "Hv" in
  let Hc := fresh "Hc" in
  destruct H as [Hv Hc]; cbn [vars constrs] in Hv, Hc;
  repeat (apply Forall_cons_1 in Hv as [? Hv]);
  repeat (apply Forall_cons_1 in Hc as [? Hc]);
  clear Hv Hc;
  unfold holds, eval in *;
  cbn [sense lhs rhs terms const objective foldr fst snd] in *.

Lemma balanced_tables_optimum :
  optimal (full_model balanced_tables) solar_only.
Proof.
  split; [apply feasibleb_spec; vm_compute; reflexivity|].
  intros Y HY.
  assert (eval solar_only (objective (full_model balanced_tables))
          == 35200000000000) as -> by (vm_compute; reflexivity).
  explicit_program balanced_tables HY. lra.
Qed.

Lemma balanced_tables_other_optimum :
  optimal (full_model balanced_tables) solar_and_a_little_wind.
Proof.
  split; [apply feasibleb_spec; vm_compute; reflexivity|].
  intros Y HY.
  assert (eval solar_and_a_little_wind (objective (full_model balanced_tables))
          == 35200000000000) as -> by (vm_compute; reflexivity).
  explicit_program balanced_tables HY. lra.
Qed.

Lemma coal_tables_optimum :
  optimal (full_model coal_tables) coal_then_solar.
Proof.
  split; [apply feasibleb_spec; vm_compute; reflexivity|].
  intros Y HY.
  assert (eval coal_then_solar (objective (full_model coal_tables))
          == 35200000000000) as -> by (vm_compute; reflexivity).
  explicit_program coal_tables HY. lra.
Qed.

Lemma retire_tables_optimum :
  optimal (full_model retire_tables) biomass_then_solar.
Proof.
  split; [apply feasibleb_spec; vm_compute; reflexivity|].
  intros Y HY.
  assert (eval biomass_then_solar (objective (full_model retire_tables))
          == 35200000000000 + 1.1 * (2.3 - emissions_target retire_tables)) as ->
    by (vm_compute; reflexivity).
  assert (emissions_target retire_tables == -36690.2964) as ->
    by (vm_compute; reflexivity).
  explicit_program retire_tables HY. lra.
Qed.

Lemma Qgtb_lt (x y : Q) : Qgtb x y = true ↔ y < x.
Proof.
  unfold Qgtb. rewrite negb_true_iff, <- not_true_iff_false, Qle_bool_iff.
  split; [apply Qnot_le_lt|apply Qlt_not_le].
Qed.

Lemma Qgtb_le (x y : Q) : Qgtb x y = false ↔ x <= y.
Proof. unfold Qgtb. by rewrite negb_false_iff, Qle_bool_iff. Qed.

Lemma years_explicit : years = [2024; 2025; 2026; 2027; 2028; 2029; 2030]%Z.
Proof. reflexivity. Qed.

(** C3, as stated, fails: on tables whose targets all equal the current
    capacities, the assignment that gives solar the minimum annual budget
    every year is a minimum-cost feasible assignment, and every minimum-cost
    feasible assignment invests at least seven times the minimum annual
    budget, so none has zero total investment. *)
Lemma balanced_optimum_invests :
  (∀ s, s ∈ filtered_sources balanced_tables →
        targetCapacity balanced_tables s == currentCapacity balanced_tables s)
  ∧ build balanced_tables empty_model
    = (full_model balanced_tables, inr (full_targets balanced_tables))
  ∧ optimal (full_model balanced_tables) solar_only
  ∧ (∀ X, optimal (full_model balanced_tables) X →
          0 < 7 * min_annual_budget <= total_investment_value balanced_tables X).
Proof.
  split.
  { apply Forall_forall. by_computation. }
  split.
  { apply build_ok; [apply balanced_tables_NoDup|apply balanced_tables_present|apply balanced_tables_nonzero]. }
  split; [apply balanced_tables_optimum|].
  intros X [HX Hopt]. split; [reflexivity|].
  pose proof (Hopt _ (proj1 balanced_tables_optimum)) as Hle. clear Hopt.
  revert Hle.
  assert (eval solar_only (objective (full_model balanced_tables))
          == 35200000000000) as -> by (vm_compute; reflexivity).
  assert (min_annual_budget == 35200000000000 # 7) as -> by reflexivity.
  unfold total_investment_value, pysum.
  assert (filtered_sources balanced_tables = ["Solar"; "Wind"; "Hydropower"; "Biomass"])
    as -> by (vm_compute; reflexivity).
  rewrite years_explicit. cbn [list_prod map app foldl fst snd].
  explicit_program balanced_tables HX. lra.
Qed.

(** ** Reported emissions and the emissions constraint *)

Lemma emissions_value_lhs (t : Tables) (X : Var → Q) :
  emissions_value t X == 8760 * eval X (lhs (Emissions_constraint t)).
Proof.
  unfold emissions_value. rewrite pysum_map.
  cbn [lhs Emissions_constraint]. rewrite eval_quicksum_map, <- Qsum_scale.
  apply Qsum_ext. intros k _. rewrite !eval_lscale, eval_of_var.
  unfold Qdiv. ring.
Qed.

Lemma last_constr_full_model (t : Tables) :
  last (constrs (full_model t)) = Some (Emissions_constraint t).
Proof. unfold full_model. cbn [constrs]. by rewrite !app_assoc, last_snoc. Qed.

(** The report ends with the emissions block. *)
Lemma report_lines_end (t : Tables) (tg : Targets) (X : Var → Q) :
  ∃ before,
    report_lines t tg X =
      before ++ [Heading_Emissions;
                 Total_Emissions (emissions_value t X) (emission_target tg);
                 if Qgtb (emissions_value t X) (emission_target tg)
                 then Emissions_Exceed (emissions_value t X - emission_target tg)
                 else Emissions_Below (emission_target tg - emissions_value t X);
                 Key_Insights].
Proof.
  exists ([Banner; Total_Investment (format_inr (total_investment_value t X / 1e7));
           Heading_Breakdown]
          ++ concat (map (source_block X) (filtered_sources t))
          ++ Heading_Budget :: concat (map (year_block t X) years)
          ++ Heading_Renewable :: renewable_block t tg X).
  unfold report_lines, emissions_block.
  repeat (rewrite <- app_assoc || rewrite <- app_comm_cons). reflexivity.
Qed.


Lemma coal_tables_present : renewables_present coal_tables.
Proof. by_computation. Qed.

Lemma coal_tables_nonzero : costs_nonzero coal_tables.
Proof. by_computation. Qed.

(** C6.  When the construction returns, the Total Emissions quantity the
    report prints is 8760 times the left-hand side of the Emissions
    constraint at the same values, and the report decides between its
    exceed and below lines by comparing that quantity with the emission
    target.  The report can therefore warn of an excess while the
    Emissions constraint holds with zero slack: on the coal tables this
    happens at a minimum-cost feasible assignment. *)
Theorem reported_emissions_are_8760_times_the_constraint :
  (∀ (t : Tables) (m : Model) (tg : Targets) (X : Var → Q),
     build t empty_model = (m, inr tg) →
     ∃ c before,
       last (constrs m) = Some c
       ∧ cname c = "Emissions"
       ∧ emissions_produced t X = inr (emissions_value t X)
       ∧ emissions_value t X == 8760 * eval X (lhs c)
       ∧ report t tg X =
           inr (before
                ++ [Heading_Emissions;
                    Total_Emissions (emissions_value t X) (emission_target tg);
                    if Qgtb (emissions_value t X) (emission_target tg)
                    then Emissions_Exceed (emissions_value t X - emission_target tg)
                    else Emissions_Below (emission_target tg - emissions_value t X);
                    Key_Insights])
       ∧ (Qgtb (emissions_value t X) (emission_target tg) = true
          ↔ emission_target tg < 8760 * eval X (lhs c)))
  ∧ (∃ (t : Tables) (m : Model) (tg : Targets) (X : Var → Q) (c : Constr)
       (lines : list Line) (excess : Q),
       build t empty_model = (m, inr tg)
       ∧ optimal m X
       ∧ last (constrs m) = Some c
       ∧ cname c = "Emissions"
       ∧ holds X c
       ∧ X Slack_Emissions == 0
       ∧ eval X (lhs c) <= emission_target tg
       ∧ report t tg X = inr lines
       ∧ Emissions_Exceed excess ∈ lines).
Proof.
  split.
  - intros t m tg X (_ & Hp & Hnz & -> & ->)%build_inr_inv.
    destruct (report_lines_end t (full_targets t) X) as [before Hlines].
    exists (Emissions_constraint t), before.
    split; [apply last_constr_full_model|]. split; [reflexivity|].
    split; [apply emissions_produced_run; exact Hnz|].
    split; [apply emissions_value_lhs|].
    split; [rewrite report_run, Hlines by assumption; reflexivity|].
    rewrite Qgtb_lt, emissions_value_lhs. reflexivity.
  - destruct (report_lines_end coal_tables (full_targets coal_tables)
                coal_then_solar) as [before Hlines].
    assert (Qgtb (emissions_value coal_tables coal_then_solar)
                 (emission_target (full_targets coal_tables)) = true) as Hgt
      by (vm_compute; reflexivity).
    rewrite Hgt in Hlines.
    exists coal_tables, (full_model coal_tables), (full_targets coal_tables),
      coal_then_solar, (Emissions_constraint coal_tables),
      (report_lines coal_tables (full_targets coal_tables) coal_then_solar),
      (emissions_value coal_tables coal_then_solar
       - emission_target (full_targets coal_tables)).
    split; [apply build_ok; [apply coal_tables_NoDup|apply coal_tables_present|apply coal_tables_nonzero]|].
    split; [apply coal_tables_optimum|].
    split; [apply last_constr_full_model|]. split; [reflexivity|].
    split; [apply holdsb_spec; vm_compute; reflexivity|].
    split; [reflexivity|].
    split; [apply Qle_bool_iff; vm_compute; reflexivity|].
    split; [apply report_run; [apply coal_tables_present|apply coal_tables_nonzero]|].
    rewrite Hlines. apply elem_of_app. right.
    apply elem_of_cons. right. apply elem_of_cons. right.
    apply elem_of_cons. left. reflexivity.
Qed.

Lemma reported_emissions_witness :
  build coal_tables empty_model
    = (full_model coal_tables, inr (full_targets coal_tables))
  ∧ emissions_value coal_tables coal_then_solar
    == 8760 * eval coal_then_solar (lhs (Emissions_constraint coal_tables)).
Proof.
  assert (build coal_tables empty_model
          = (full_model coal_tables, inr (full_targets coal_tables))) as Hb
    by (apply build_ok; [apply coal_tables_NoDup|apply coal_tables_present|apply coal_tables_nonzero]).
  split; [exact Hb|].
  destruct (proj1 reported_emissions_are_8760_times_the_constraint
              coal_tables _ _ coal_then_solar Hb)
    as (c & before & Hlast & _ & _ & Hval & _).
  rewrite last_constr_full_model in Hlast. injection Hlast as <-. exact Hval.
Defined.


(** ** The lines of the report *)

Ltac split_elem :=
  repeat match goal with
    | H : _ ∈ _ ++ _ |- _ => apply elem_of_app in H as [H|H]
    | H : _ ∈ _ :: _ |- _ => apply elem_of_cons in H as [H|H]
    | H : _ ∈ [] |- _ => by apply not_elem_of_nil in H
    | H : _ ∈ (if ?b then _ else _) |- _ => destruct b eqn:?
    end.

Lemma or_iff_compat (A B C D : Prop) : (A ↔ C) → (B ↔ D) → (A ∨ B ↔ C ∨ D).
Proof. tauto. Qed.

Lemma elem_of_concat {A} (x : A) (ls : list (list A)) :
  x ∈ concat ls ↔ ∃ l, x ∈ l ∧ l ∈ ls.
Proof.
  induction ls as [|l ls IH]; simpl.
  - split; [by intros ?%not_elem_of_nil|]. by intros (l & _ & ?%not_elem_of_nil).
  - rewrite elem_of_app, IH. split.
    + intros [H|(l' & H1 & H2)]; [exists l; split; [done|left]|].
      exists l'. split; [done|by right].
    + intros (l' & H1 & [->|H2]%elem_of_cons); [by left|right; eauto].
Qed.

Section Lines.
Context (t : Tables) (tg : Targets) (X : Var → Q).

Lemma elem_of_source_year_block (s : string) (y : Z) (l : Line) :
  l ∈ source_year_block X s y ↔
  0.5 < X (Investment s y)
  ∧ l = Source_Year y (format_inr (X (Investment s y) / 1e7)).
Proof.
  unfold source_year_block.
  destruct (Qgtb (X (Investment s y)) 0.5) eqn:E.
  - apply Qgtb_lt in E. rewrite list_elem_of_singleton. tauto.
  - apply Qgtb_le in E. split; [by intros ?%not_elem_of_nil|].
    intros [H _]. lra.
Qed.

Lemma elem_of_source_years (s : string) (l : Line) :
  l ∈ concat (map (source_year_block X s) years) ↔
  ∃ y, y ∈ years ∧ 0.5 < X (Investment s y)
       ∧ l = Source_Year y (format_inr (X (Investment s y) / 1e7)).
Proof.
  rewrite elem_of_concat. split.
  - intros (b & Hl & (y & -> & Hy)%list_elem_of_fmap).
    apply elem_of_source_year_block in Hl. eauto.
  - intros (y & Hy & Hgt & ->). exists (source_year_block X s y). split.
    + by apply elem_of_source_year_block.
    + by apply list_elem_of_fmap_2.
Qed.

Lemma elem_of_source_block (s : string) (l : Line) :
  l ∈ source_block X s ↔
  (0 < source_total X s
   ∧ (l = Source_Total s (format_inr (source_total X s / 1e7))
      ∨ ∃ y, y ∈ years ∧ 0.5 < X (Investment s y)
             ∧ l = Source_Year y (format_inr (X (Investment s y) / 1e7))))
  ∨ (0.5 < X (Slack_Target s)
     ∧ l = Target_Shortfall s (format_inr (X (Slack_Target s) / 1e7))).
Proof.
  unfold source_block. rewrite elem_of_app.
  apply or_iff_compat.
  - destruct (Qgtb (source_total X s) 0) eqn:E.
    + apply Qgtb_lt in E. rewrite elem_of_cons, elem_of_source_years. tauto.
    + apply Qgtb_le in E. split; [by intros ?%not_elem_of_nil|].
      intros [H _]. lra.
  - destruct (Qgtb (X (Slack_Target s)) 0.5) eqn:E.
    + apply Qgtb_lt in E. rewrite list_elem_of_singleton. tauto.
    + apply Qgtb_le in E. split; [by intros ?%not_elem_of_nil|].
      intros [H _]. lra.
Qed.

Lemma elem_of_year_block (y : Z) (l : Line) :
  l ∈ year_block t X y ↔
  l = Year_Total y (format_inr (year_total t X y / 1e7))
  ∨ (0.5 < X (Slack_Min_Budget y)
     ∧ l = Min_Budget_Shortfall (format_inr (X (Slack_Min_Budget y) / 1e7)))
  ∨ (0.5 < X (Slack_Max_Budget y)
     ∧ l = Max_Budget_Exceeded (format_inr (X (Slack_Max_Budget y) / 1e7))).
Proof.
  unfold year_block. rewrite elem_of_cons, elem_of_app.
  apply or_iff_compat_l, or_iff_compat.
  - destruct (Qgtb (X (Slack_Min_Budget y)) 0.5) eqn:E.
    + apply Qgtb_lt in E. rewrite list_elem_of_singleton. tauto.
    + apply Qgtb_le in E. split; [by intros ?%not_elem_of_nil|].
      intros [H _]. lra.
  - destruct (Qgtb (X (Slack_Max_Budget y)) 0.5) eqn:E.
    + apply Qgtb_lt in E. rewrite list_elem_of_singleton. tauto.
    + apply Qgtb_le in E. split; [by intros ?%not_elem_of_nil|].
      intros [H _]. lra.
Qed.

Lemma elem_of_renewable_block (l : Line) :
  l ∈ renewable_block t tg X ↔
  l = Capacity_Achieved (capacity_achieved t X) (capacity_target tg)
  ∨ (0.5 < X Slack_Renewable_Capacity
     ∧ l = Capacity_Shortfall (X Slack_Renewable_Capacity))
  ∨ l = Production_Achieved (production_achieved t X) (production_target tg)
  ∨ (0.5 < X Slack_Renewable_Production
     ∧ l = Production_Shortfall (X Slack_Renewable_Production / 1e6)).
Proof.
  unfold renewable_block. rewrite elem_of_cons, elem_of_app, elem_of_cons.
  apply or_iff_compat_l, or_iff_compat; [|apply or_iff_compat_l].
  - destruct (Qgtb (X Slack_Renewable_Capacity) 0.5) eqn:E.
    + apply Qgtb_lt in E. rewrite list_elem_of_singleton. tauto.
    + apply Qgtb_le in E. split; [by intros ?%not_elem_of_nil|].
      intros [H _]. lra.
  - destruct (Qgtb (X Slack_Renewable_Production) 0.5) eqn:E.
    + apply Qgtb_lt in E. rewrite list_elem_of_singleton. tauto.
    + apply Qgtb_le in E. split; [by intros ?%not_elem_of_nil|].
      intros [H _]. lra.
Qed.

Lemma elem_of_emissions_block (l : Line) :
  l ∈ emissions_block t tg X ↔
  l = Total_Emissions (emissions_value t X) (emission_target tg)
  ∨ (emission_target tg < emissions_value t X
     ∧ l = Emissions_Exceed (emissions_value t X - emission_target tg))
  ∨ (emissions_value t X <= emission_target tg
     ∧ l = Emissions_Below (emission_target tg - emissions_value t X)).
Proof.
  unfold emissions_block. rewrite elem_of_cons, list_elem_of_singleton.
  apply or_iff_compat_l.
  destruct (Qgtb (emissions_value t X) (emission_target tg)) eqn:E.
  - apply Qgtb_lt in E. split; [by left|].
    intros [[_ H]|[H _]]; [done|lra].
  - apply Qgtb_le in E. split; [by right|].
    intros [[H _]|[_ H]]; [lra|done].
Qed.

(** Where a line of the report comes from. *)
Lemma elem_of_report_lines (l : Line) :
  l ∈ report_lines t tg X ↔
  l ∈ [Banner; Total_Investment (format_inr (total_investment_value t X / 1e7));
       Heading_Breakdown; Heading_Budget; Heading_Renewable; Heading_Emissions;
       Key_Insights]
  ∨ (∃ s, s ∈ filtered_sources t ∧ l ∈ source_block X s)
  ∨ (∃ y, y ∈ years ∧ l ∈ year_block t X y)
  ∨ l ∈ renewable_block t tg X
  ∨ l ∈ emissions_block t tg X.
Proof.
  unfold report_lines.
  repeat (rewrite elem_of_app || rewrite elem_of_cons || rewrite elem_of_concat
          || rewrite elem_of_nil).
  split.
  - intros H.
    repeat match goal with
      | H : _ ∨ _ |- _ => destruct H as [H|H]
      | H : False |- _ => destruct H
      end; try tauto.
    + destruct H as (b & Hl & (s & -> & Hs)%list_elem_of_fmap). eauto 8.
    + destruct H as (b & Hl & (y & -> & Hy)%list_elem_of_fmap). eauto 8.
  - intros [H|[(s & Hs & Hl)|[(y & Hy & Hl)|[H|H]]]]; try tauto.
    + assert (∃ b, l ∈ b ∧ b ∈ map (source_block X) (filtered_sources t)) as Hb.
      { exists (source_block X s). split; [done|]. by apply list_elem_of_fmap_2. }
      tauto.
    + assert (∃ b, l ∈ b ∧ b ∈ map (year_block t X) years) as Hb.
      { exists (year_block t X y). split; [done|]. by apply list_elem_of_fmap_2. }
      tauto.
Qed.

End Lines.


(** ** What a printed report says *)

(** A run prints a report only after a construction that returned and an
    OPTIMAL status. *)
Lemma main_Printed_inv (optimize : Model → Status * (Var → Q)) (t : Tables)
    (lines : list Line) :
  main optimize t = Printed lines →
  renewables_present t ∧ costs_nonzero t
  ∧ ∃ X, optimize (full_model t) = (OPTIMAL, X)
         ∧ lines = report_lines t (full_targets t) X.
Proof.
  unfold main. destruct (build t empty_model) as [m [e|tg]] eqn:Hb; [done|].
  apply build_inr_inv in Hb as (Hnd & Hp & Hnz & -> & ->).
  destruct (optimize (full_model t)) as [[|code] X]; [|done].
  rewrite report_run by done. intros [= <-]. eauto.
Qed.

Lemma report_lines_with_emissions_slack (t : Tables) (tg : Targets)
    (X : Var → Q) (q : Q) :
  report_lines t tg (with_emissions_slack q X) = report_lines t tg X.
Proof. reflexivity. Qed.

Lemma elem_of_report_source_total (t : Tables) (tg : Targets) (X : Var → Q)
    (s : string) (a : INR) :
  Source_Total s a ∈ report_lines t tg X ↔
  s ∈ filtered_sources t ∧ 0 < source_total X s
  ∧ a = format_inr (source_total X s / 1e7).
Proof.
  rewrite elem_of_report_lines. split.
  - intros [H|[(s' & Hs & H)|[(y & _ & H)|[H|H]]]].
    + split_elem; discriminate.
    + apply elem_of_source_block in H
        as [[Hpos [H|(y & _ & _ & H)]]|[_ H]]; try discriminate.
      injection H as -> ->. done.
    + apply elem_of_year_block in H as [H|[[_ H]|[_ H]]]; discriminate.
    + apply elem_of_renewable_block in H as [H|[[_ H]|[H|[_ H]]]]; discriminate.
    + apply elem_of_emissions_block in H as [H|[[_ H]|[_ H]]]; discriminate.
  - intros (Hs & Hpos & ->). right. left. exists s. split; [done|].
    apply elem_of_source_block. left. split; [done|by left].
Qed.

Lemma elem_of_report_source_year (t : Tables) (tg : Targets) (X : Var → Q)
    (y : Z) (a : INR) :
  Source_Year y a ∈ report_lines t tg X ↔
  ∃ s, s ∈ filtered_sources t ∧ y ∈ years ∧ 0 < source_total X s
       ∧ 0.5 < X (Investment s y)
       ∧ a = format_inr (X (Investment s y) / 1e7).
Proof.
  rewrite elem_of_report_lines. split.
  - intros [H|[(s & Hs & H)|[(y' & _ & H)|[H|H]]]].
    + split_elem; discriminate.
    + apply elem_of_source_block in H
        as [[Hpos [H|(y' & Hy & Hgt & H)]]|[_ H]]; try discriminate.
      injection H as -> ->. exists s. done.
    + apply elem_of_year_block in H as [H|[[_ H]|[_ H]]]; discriminate.
    + apply elem_of_renewable_block in H as [H|[[_ H]|[H|[_ H]]]]; discriminate.
    + apply elem_of_emissions_block in H as [H|[[_ H]|[_ H]]]; discriminate.
  - intros (s & Hs & Hy & Hpos & Hgt & ->). right. left. exists s.
    split; [done|]. apply elem_of_source_block. left. split; [done|].
    right. eauto.
Qed.

Lemma elem_of_report_emissions_exceed (t : Tables) (tg : Targets) (X : Var → Q)
    (excess : Q) :
  Emissions_Exceed excess ∈ report_lines t tg X ↔
  emission_target tg < emissions_value t X
  ∧ excess = emissions_value t X - emission_target tg.
Proof.
  rewrite elem_of_report_lines. split.
  - intros [H|[(s' & Hs & H)|[(y & _ & H)|[H|H]]]].
    + split_elem; discriminate.
    + apply elem_of_source_block in H
        as [[Hpos [H|(y & _ & _ & H)]]|[_ H]]; discriminate.
    + apply elem_of_year_block in H as [H|[[_ H]|[_ H]]]; discriminate.
    + apply elem_of_renewable_block in H as [H|[[_ H]|[H|[_ H]]]]; discriminate.
    + apply elem_of_emissions_block in H as [H|[[Hlt H]|[_ H]]]; try discriminate.
      by injection H as ->.
  - intros [Hlt ->]. do 4 right. apply elem_of_emissions_block. right. by left.
Qed.

(** C5, as stated, fails: at a minimum-cost feasible assignment of the
    balanced tables wind receives 0.3 in total, and the report prints the
    total of wind although it does not exceed 0.5. *)
Lemma small_source_total_is_printed :
  optimal (full_model balanced_tables) solar_and_a_little_wind
  ∧ main (λ _, (OPTIMAL, solar_and_a_little_wind)) balanced_tables
    = Printed (report_lines balanced_tables (full_targets balanced_tables)
                 solar_and_a_little_wind)
  ∧ source_total solar_and_a_little_wind "Wind" <= 0.5
  ∧ Source_Total "Wind"
      (format_inr (source_total solar_and_a_little_wind "Wind" / 1e7))
    ∈ report_lines balanced_tables (full_targets balanced_tables)
        solar_and_a_little_wind.
Proof.
  split; [apply balanced_tables_other_optimum|].
  split.
  { rewrite main_run;
      [reflexivity|apply balanced_tables_NoDup|apply balanced_tables_present|apply balanced_tables_nonzero]. }
  split; [apply Qle_bool_iff; vm_compute; reflexivity|].
  apply elem_of_report_source_total. split; [by_computation|].
  split; [|reflexivity]. apply Qgtb_lt. vm_compute. reflexivity.
Qed.

(** C5, amended.  In a printed report the total of a source is printed
    exactly when the source is filtered and its total exceeds 0 (not 0.5),
    and the entry of a year with an amount is printed exactly when, for some
    filtered source, the total of the source exceeds 0, the investment of
    that source and year exceeds 0.5, and the amount is that investment. *)
Theorem investment_breakdown_thresholds
    (optimize : Model → Status * (Var → Q)) (t : Tables) (lines : list Line) :
  main optimize t = Printed lines →
  ∃ X, optimize (full_model t) = (OPTIMAL, X)
       ∧ (∀ s a, Source_Total s a ∈ lines ↔
                 s ∈ filtered_sources t ∧ 0 < source_total X s
                 ∧ a = format_inr (source_total X s / 1e7))
       ∧ (∀ y a, Source_Year y a ∈ lines ↔
                 ∃ s, s ∈ filtered_sources t ∧ y ∈ years
                      ∧ 0 < source_total X s
                      ∧ 0.5 < X (Investment s y)
                      ∧ a = format_inr (X (Investment s y) / 1e7))
       ∧ (∀ s, s ∈ filtered_sources t →
               source_investment t X s = inr (source_total X s)).
Proof.
  intros (Hp & Hnz & X & Hopt & ->)%main_Printed_inv.
  exists X. split; [done|]. split; [|split].
  - intros s a. apply elem_of_report_source_total.
  - intros y a. apply elem_of_report_source_year.
  - intros s Hs. by apply source_investment_run.
Qed.

Lemma investment_breakdown_thresholds_witness :
  main (λ _, (OPTIMAL, solar_and_a_little_wind)) balanced_tables
  = Printed (report_lines balanced_tables (full_targets balanced_tables)
               solar_and_a_little_wind)
  ∧ ∃ X, (∀ s a, Source_Total s a
                   ∈ report_lines balanced_tables (full_targets balanced_tables)
                       solar_and_a_little_wind ↔
                 s ∈ filtered_sources balanced_tables ∧ 0 < source_total X s
                 ∧ a = format_inr (source_total X s / 1e7)).
Proof.
  assert (main (λ _, (OPTIMAL, solar_and_a_little_wind)) balanced_tables
          = Printed (report_lines balanced_tables (full_targets balanced_tables)
                       solar_and_a_little_wind)) as Hm.
  { rewrite main_run;
      [reflexivity|apply balanced_tables_NoDup|apply balanced_tables_present|apply balanced_tables_nonzero]. }
  split; [exact Hm|].
  destruct (investment_breakdown_thresholds _ _ _ Hm) as (X & _ & H & _).
  exists X. exact H.
Defined.


(** ** Slack warnings *)

Lemma retire_tables_present : renewables_present retire_tables.
Proof. by_computation. Qed.

Lemma retire_tables_nonzero : costs_nonzero retire_tables.
Proof. by_computation. Qed.

Lemma retire_tables_main :
  main (λ _, (OPTIMAL, biomass_then_solar)) retire_tables
  = Printed (report_lines retire_tables (full_targets retire_tables)
               biomass_then_solar).
Proof.
  rewrite main_run;
    [reflexivity|apply retire_tables_NoDup|apply retire_tables_present|apply retire_tables_nonzero].
Qed.

(** C4, as stated, fails for the emissions slack: at a minimum-cost feasible
    assignment of the retire tables the emissions slack is above 0.5, the
    report would be the same with an emissions slack of 0, and the only
    excess the report names differs from the slack. *)
Lemma emissions_slack_is_not_reported :
  optimal (full_model retire_tables) biomass_then_solar
  ∧ main (λ _, (OPTIMAL, biomass_then_solar)) retire_tables
    = Printed (report_lines retire_tables (full_targets retire_tables)
                 biomass_then_solar)
  ∧ 0.5 < biomass_then_solar Slack_Emissions
  ∧ report_lines retire_tables (full_targets retire_tables)
      (with_emissions_slack 0 biomass_then_solar)
    = report_lines retire_tables (full_targets retire_tables) biomass_then_solar
  ∧ (∀ excess,
       Emissions_Exceed excess
         ∈ report_lines retire_tables (full_targets retire_tables)
             biomass_then_solar →
       ¬ excess == biomass_then_solar Slack_Emissions).
Proof.
  split; [apply retire_tables_optimum|].
  split; [apply retire_tables_main|].
  split; [apply Qgtb_lt; vm_compute; reflexivity|].
  split; [apply report_lines_with_emissions_slack|].
  intros excess [_ ->]%elem_of_report_emissions_exceed.
  intros H. vm_compute in H. discriminate.
Qed.

(** C4, amended.  In a printed report, a target, min-budget, max-budget,
    renewable-capacity or renewable-production slack above 0.5 has its
    warning line with its magnitude.  The emissions slack has none: the
    report does not read it, and names an excess of emissions exactly when
    the emissions it computes exceed the emission target, by their
    difference. *)
Theorem slack_warnings
    (optimize : Model → Status * (Var → Q)) (t : Tables) (lines : list Line) :
  main optimize t = Printed lines →
  ∃ X, optimize (full_model t) = (OPTIMAL, X)
       ∧ (∀ s, s ∈ filtered_sources t → 0.5 < X (Slack_Target s) →
               Target_Shortfall s (format_inr (X (Slack_Target s) / 1e7)) ∈ lines)
       ∧ (∀ y, y ∈ years → 0.5 < X (Slack_Min_Budget y) →
               Min_Budget_Shortfall (format_inr (X (Slack_Min_Budget y) / 1e7))
                 ∈ lines)
       ∧ (∀ y, y ∈ years → 0.5 < X (Slack_Max_Budget y) →
               Max_Budget_Exceeded (format_inr (X (Slack_Max_Budget y) / 1e7))
                 ∈ lines)
       ∧ (0.5 < X Slack_Renewable_Capacity →
          Capacity_Shortfall (X Slack_Renewable_Capacity) ∈ lines)
       ∧ (0.5 < X Slack_Renewable_Production →
          Production_Shortfall (X Slack_Renewable_Production / 1e6) ∈ lines)
       ∧ (∀ q, report_lines t (full_targets t) (with_emissions_slack q X) = lines)
       ∧ (∀ excess,
            Emissions_Exceed excess ∈ lines ↔
            emission_target (full_targets t) < emissions_value t X
            ∧ excess = emissions_value t X - emission_target (full_targets t)).
Proof.
  intros (Hp & Hnz & X & Hopt & ->)%main_Printed_inv.
  exists X. split; [done|].
  split; [|split; [|split; [|split; [|split; [|split]]]]].
  - intros s Hs Hgt. apply elem_of_report_lines. right. left. exists s.
    split; [done|]. apply elem_of_source_block. by right.
  - intros y Hy Hgt. apply elem_of_report_lines. right. right. left. exists y.
    split; [done|]. apply elem_of_year_block. right. by left.
  - intros y Hy Hgt. apply elem_of_report_lines. right. right. left. exists y.
    split; [done|]. apply elem_of_year_block. right. by right.
  - intros Hgt. apply elem_of_report_lines. do 3 right. left.
    apply elem_of_renewable_block. right. by left.
  - intros Hgt. apply elem_of_report_lines. do 3 right. left.
    apply elem_of_renewable_block. do 3 right. done.
  - intros q. apply report_lines_with_emissions_slack.
  - intros excess. apply elem_of_report_emissions_exceed.
Qed.

Lemma slack_warnings_witness :
  main (λ _, (OPTIMAL, biomass_then_solar)) retire_tables
  = Printed (report_lines retire_tables (full_targets retire_tables)
               biomass_then_solar)
  ∧ ∃ X, ∀ excess,
      Emissions_Exceed excess
        ∈ report_lines retire_tables (full_targets retire_tables)
            biomass_then_solar ↔
      emission_target (full_targets retire_tables)
        < emissions_value retire_tables X
      ∧ excess = emissions_value retire_tables X
                 - emission_target (full_targets retire_tables).
Proof.
  split; [exact retire_tables_main|].
  destruct (slack_warnings _ _ _ retire_tables_main)
    as (X & _ & _ & _ & _ & _ & _ & _ & H).
  exists X. exact H.
Defined.


(** ** The theorems at sample tables *)

Lemma balanced_tables_balanced (s : string) :
  s ∈ filtered_sources balanced_tables →
  targetCapacity balanced_tables s == currentCapacity balanced_tables s.
Proof. revert s. apply Forall_forall. by_computation. Qed.

Lemma balanced_tables_build :
  build balanced_tables empty_model
  = (full_model balanced_tables, inr (full_targets balanced_tables)).
Proof.
  apply build_ok; [apply balanced_tables_NoDup|apply balanced_tables_present|apply balanced_tables_nonzero].
Qed.

Lemma coal_tables_build :
  build coal_tables empty_model
  = (full_model coal_tables, inr (full_targets coal_tables)).
Proof. apply build_ok; [apply coal_tables_NoDup|apply coal_tables_present|apply coal_tables_nonzero]. Qed.

Lemma balanced_targets_need_no_target_slack_witness :
  (∀ s, s ∈ filtered_sources balanced_tables →
        targetCapacity balanced_tables s == currentCapacity balanced_tables s)
  ∧ build balanced_tables empty_model
    = (full_model balanced_tables, inr (full_targets balanced_tables))
  ∧ optimal (full_model balanced_tables) solar_only
  ∧ solar_only (Slack_Target "Solar") == 0.
Proof.
  split; [exact balanced_tables_balanced|].
  split; [exact balanced_tables_build|].
  split; [exact balanced_tables_optimum|].
  apply (proj2 (balanced_targets_need_no_target_slack balanced_tables _ _
                  balanced_tables_balanced balanced_tables_build)
           solar_only balanced_tables_optimum "Solar").
  by_computation.
Defined.

Lemma emissions_constraint_as_specified_witness :
  build coal_tables empty_model
  = (full_model coal_tables, inr (full_targets coal_tables))
  ∧ ∃ c, last (constrs (full_model coal_tables)) = Some c
         ∧ cname c = "Emissions"
         ∧ sense c = LE.
Proof.
  split; [exact coal_tables_build|].
  destruct (emissions_constraint_as_specified coal_tables _ _ coal_tables_build)
    as (c & Hlast & Hname & Hsense & _).
  exists c. split; [exact Hlast|]. split; [exact Hname|exact Hsense].
Defined.


(** * Further properties of the script *)

(** ** [format_inr] *)

(** X1.  [format_inr] switches unit at exactly 10^5 crore: an amount of at
    least 10^5 is shown in lakh crore, divided by 10^5, any smaller amount
    (a negative one too) in crore, unchanged; either way the text stands
    for the amount it was given, in rupees amount * 10^7.  The report
    passes every currency value divided by 10^7, so each currency line
    stands for the rupee value it reports. *)
Theorem format_inr_unit (amount : Q) :
  (1e5 <= amount → format_inr amount = Lakh_Crore (amount / 1e5))
  ∧ (amount < 1e5 → format_inr amount = Crore amount)
  ∧ rupees (format_inr amount) == amount * 10^7
  ∧ rupees (format_inr (amount / 1e7)) == amount.
Proof.
  assert (∀ a, rupees (format_inr a) == a * 10^7) as Hr.
  { intros a. unfold format_inr. destruct (Qle_bool 1e5 a); [|reflexivity].
    cbn [rupees]. unfold Qdiv. rewrite <- Qmult_assoc.
    apply Qmult_comp; [reflexivity|]. vm_compute. reflexivity. }
  assert (rupees (format_inr (amount / 1e7)) == amount) as Hrt.
  { rewrite Hr. unfold Qdiv. rewrite <- Qmult_assoc.
    assert (/ 1e7 * 10 ^ 7 == 1) as -> by (vm_compute; reflexivity). ring. }
  revert Hrt. generalize (rupees (format_inr (amount / 1e7))). intros q Hrt.
  cut ((1e5 <= amount → format_inr amount = Lakh_Crore (amount / 1e5))
       ∧ (amount < 1e5 → format_inr amount = Crore amount)
       ∧ rupees (format_inr amount) == amount * 10^7); [tauto|]. clear q Hrt Hr.
  unfold format_inr. destruct (Qle_bool 1e5 amount) eqn:E.
  - apply Qle_bool_iff in E. split; [done|]. split; [intros; lra|].
    cbn [rupees]. unfold Qdiv. rewrite <- Qmult_assoc.
    apply Qmult_comp; [reflexivity|]. vm_compute. reflexivity.
  - assert (amount < 1e5) as Hlt.
    { apply Qnot_le_lt. intros H%Qle_bool_iff. congruence. }
    split; [intros; lra|]. split; [done|]. reflexivity.
Qed.

(** ** The dictionaries of the cost table *)

Lemma dict_zip_lookup_last {R A} (k : R → string) (f : R → A) (rows : list R)
    (s : string) :
  dict_zip (map k rows) (map f rows) !! s
  = f <$> last (filter (λ r, k r = s) rows).
Proof.
  rewrite dict_zip_rows, lookup_foldl_insert_row, lookup_empty.
  assert (filter (λ r, (Some ∘ k) r = Some s) rows = filter (λ r, k r = s) rows)
    as ->.
  { apply list_filter_iff. intros r. simpl. split; congruence. }
  by destruct (last _).
Qed.

(** X2.  The three dictionaries built from the cost table read the same
    row: for a source with several rows each of capital cost, current
    capacity and emission factor is the value of the last row, and a source
    without a row is in none of them. *)
Theorem cost_dictionaries_read_last_row (t : Tables) (s : string) :
  capital_cost t !! s = Capital_Cost <$> cost_row_of t s
  ∧ current_capacity t !! s = Current_Production <$> cost_row_of t s
  ∧ emission_factors t !! s = Emission_Factor <$> cost_row_of t s
  ∧ (cost_row_of t s = None ↔ s ∉ sources t).
Proof.
  unfold capital_cost, current_capacity, emission_factors, cost_row_of, sources.
  rewrite !dict_zip_lookup_last. split; [done|]. split; [done|]. split; [done|].
  rewrite last_None. split.
  - intros Hnil (r & -> & Hr)%list_elem_of_fmap.
    assert (r ∈ filter (λ r', Source r' = Source r) (emissions_data t)) as Hin
      by (by apply list_elem_of_filter).
    rewrite Hnil in Hin. by apply not_elem_of_nil in Hin.
  - intros Hs. destruct (filter _ _) as [|r l] eqn:E; [done|].
    assert (r ∈ filter (λ r', Source r' = s) (emissions_data t)) as Hin
      by (rewrite E; left).
    apply list_elem_of_filter in Hin as [<- Hin]. destruct Hs.
    by apply list_elem_of_fmap_2.
Qed.


(** ** Sums over the keys of a [tupledict] *)

Lemma Qsum_filter {A} (P : A → Prop) `{∀ x, Decision (P x)} (f : A → Q)
    (l : list A) :
  Qsum f (filter P l) == Qsum (λ x, if decide (P x) then f x else 0) l.
Proof.
  induction l as [|x l IH]; [reflexivity|].
  rewrite filter_cons. simpl. destruct (decide (P x)); simpl; rewrite IH; lra.
Qed.

Lemma Qsum_zero {A} (l : list A) : Qsum (λ _, 0) l == 0.
Proof. induction l as [|x l IH]; simpl; [reflexivity|]. rewrite IH. lra. Qed.

(** Summing [g] over the one occurrence of [x]. *)
Lemma Qsum_indicator {A} `{EqDecision A} (g : A → Q) (l : list A) (x : A) :
  NoDup l → x ∈ l → Qsum (λ y, if decide (y = x) then g y else 0) l == g x.
Proof.
  induction 1 as [|y l Hy Hl IH]; intros Hx; [by apply not_elem_of_nil in Hx|].
  simpl. destruct (decide (y = x)) as [->|Hne].
  - rewrite (Qsum_ext _ (λ _, 0)), Qsum_zero; [lra|].
    intros z Hz. destruct (decide (z = x)) as [->|]; [done|reflexivity].
  - apply elem_of_cons in Hx as [->|Hx]; [done|]. rewrite IH by done. lra.
Qed.

Lemma NoDup_years : NoDup years.
Proof. apply NoDup_seqZ. Qed.

Lemma NoDup_filtered_sources (t : Tables) :
  NoDup (sources t) → NoDup (filtered_sources t).
Proof. apply NoDup_filter. Qed.

Section Key_sums.
Context (t : Tables) (X : Var → Q).

(** [investment.sum('*', year)] *)
Lemma eval_investment_sum_year (y : Z) :
  y ∈ years →
  eval X (investment_sum_year t y)
  == Qsum (λ s, X (Investment s y)) (filtered_sources t).
Proof.
  intros Hy. unfold investment_sum_year, investment_keys.
  rewrite eval_quicksum_map.
  rewrite (Qsum_ext _ (λ k, X (Investment k.1 k.2)))
    by (intros; apply eval_of_var).
  rewrite (Qsum_filter (λ k : string * Z, k.2 = y)), Qsum_prod.
  apply Qsum_ext. intros s _. cbn [fst snd].
  apply (Qsum_indicator (λ y', X (Investment s y'))); [apply NoDup_years|done].
Qed.

(** [investment.sum(source, '*')], when the source names are distinct. *)
Lemma eval_investment_sum_source (s : string) :
  NoDup (sources t) → s ∈ filtered_sources t →
  eval X (investment_sum_source t s) == Qsum (λ y, X (Investment s y)) years.
Proof.
  intros Hnd Hs. unfold investment_sum_source, investment_keys.
  rewrite eval_quicksum_map.
  rewrite (Qsum_ext _ (λ k, X (Investment k.1 k.2)))
    by (intros; apply eval_of_var).
  rewrite (Qsum_filter (λ k : string * Z, k.1 = s)), Qsum_prod. cbn [fst snd].
  rewrite (Qsum_ext _ (λ s', if decide (s' = s)
                             then Qsum (λ y, X (Investment s' y)) years else 0)).
  - apply (Qsum_indicator (λ s', Qsum (λ y, X (Investment s' y)) years));
      [by apply NoDup_filtered_sources|done].
  - intros s' _. destruct (decide (s' = s)); [reflexivity|apply Qsum_zero].
Qed.

End Key_sums.


(** ** What the constraints say *)

Lemma elem_of_build_constrs (t : Tables) (c : Constr) :
  NoDup (filtered_sources t) →
  c ∈ target_constraints t ++ budget_constraints t →
  c ∈ constrs (build t empty_model).1.
Proof. intros Hnd. by apply elem_of_prefix, build_constrs_prefix. Qed.

(** X3.  For every year of the horizon and tables that repeat no filtered
    source (so that the variables are created), the model holds the two
    budget constraints of the year, also when the construction raises
    later; the min-budget constraint
    holds exactly when the investments of the year over the filtered
    sources plus the year's min-budget slack reach the minimum annual
    budget, and the max-budget constraint exactly when those investments
    stay within the maximum annual budget plus the year's max-budget
    slack. *)
Theorem budget_constraints_bound_the_year (t : Tables) (X : Var → Q) (y : Z) :
  NoDup (filtered_sources t) → y ∈ years →
  Min_Budget_constraint t y ∈ constrs (build t empty_model).1
  ∧ Max_Budget_constraint t y ∈ constrs (build t empty_model).1
  ∧ (holds X (Min_Budget_constraint t y) ↔
     min_annual_budget
     <= Qsum (λ s, X (Investment s y)) (filtered_sources t) + X (Slack_Min_Budget y))
  ∧ (holds X (Max_Budget_constraint t y) ↔
     Qsum (λ s, X (Investment s y)) (filtered_sources t)
     <= max_annual_budget + X (Slack_Max_Budget y)).
Proof.
  intros Hnd Hy. destruct (elem_of_budget_constraints t y Hy) as [Hmin Hmax].
  split; [apply elem_of_build_constrs, elem_of_app; [done|by right]|].
  split; [apply elem_of_build_constrs, elem_of_app; [done|by right]|].
  unfold holds. cbn [sense lhs rhs Min_Budget_constraint Max_Budget_constraint].
  rewrite !eval_ladd, !eval_of_const, !eval_of_var,
    !eval_investment_sum_year by done.
  done.
Qed.

Lemma budget_constraints_bound_the_year_witness :
  NoDup (filtered_sources balanced_tables)
  ∧ 2024%Z ∈ years
  ∧ (holds solar_only (Min_Budget_constraint balanced_tables 2024) ↔
     min_annual_budget
     <= Qsum (λ s, solar_only (Investment s 2024)) (filtered_sources balanced_tables)
        + solar_only (Slack_Min_Budget 2024)).
Proof.
  split; [apply balanced_tables_NoDup|]. split; [apply years_nonempty|].
  apply (budget_constraints_bound_the_year balanced_tables solar_only 2024);
    [apply balanced_tables_NoDup|apply years_nonempty].
Defined.

(** X4.  When the source names of the cost table are distinct, every
    filtered source has its target constraint in the model, whatever
    happens later in the construction, and the constraint holds exactly
    when the investments in the source over the seven years plus its target
    slack reach (target capacity - current capacity) * capital cost. *)
Theorem target_constraint_funds_the_gap (t : Tables) (X : Var → Q) (s : string) :
  NoDup (sources t) → s ∈ filtered_sources t →
  Target_constraint t s ∈ constrs (build t empty_model).1
  ∧ (holds X (Target_constraint t s) ↔
     (targetCapacity t s - currentCapacity t s) * capitalCost t s
     <= Qsum (λ y, X (Investment s y)) years + X (Slack_Target s)).
Proof.
  intros Hnd Hs. split.
  - apply elem_of_build_constrs, elem_of_app;
      [by apply NoDup_filtered_sources|]. left.
    by apply elem_of_target_constraints.
  - unfold holds. cbn [sense lhs rhs Target_constraint].
    rewrite eval_ladd, eval_of_const, eval_of_var, eval_investment_sum_source
      by done.
    done.
Qed.

Lemma NoDup_sources_balanced : NoDup (sources balanced_tables).
Proof. by_computation. Qed.

Lemma target_constraint_funds_the_gap_witness :
  NoDup (sources balanced_tables)
  ∧ "Wind" ∈ filtered_sources balanced_tables
  ∧ Target_constraint balanced_tables "Wind"
      ∈ constrs (build balanced_tables empty_model).1.
Proof.
  assert ("Wind" ∈ filtered_sources balanced_tables) as Hs by by_computation.
  split; [exact NoDup_sources_balanced|]. split; [exact Hs|].
  apply (target_constraint_funds_the_gap balanced_tables solar_only "Wind"
           NoDup_sources_balanced Hs).
Defined.

(** ** The two renewable constraints *)

Lemma holds_GE (X : Var → Q) (c : Constr) :
  sense c = GE → (holds X c ↔ eval X (rhs c) <= eval X (lhs c)).
Proof. unfold holds. by intros ->. Qed.

Lemma holds_LE (X : Var → Q) (c : Constr) :
  sense c = LE → (holds X c ↔ eval X (lhs c) <= eval X (rhs c)).
Proof. unfold holds. by intros ->. Qed.

Lemma eval_renewable_capacity_lhs (t : Tables) (X : Var → Q) :
  eval X (lhs (Renewable_Capacity_constraint t))
  == Qsum (λ r, Qsum (λ y, X (Investment r y) / capitalCost t r) years)
          renewable_sources
     + X Slack_Renewable_Capacity.
Proof.
  cbn [lhs Renewable_Capacity_constraint].
  rewrite eval_ladd, eval_of_var, eval_quicksum_map.
  rewrite <- (Qsum_prod (λ k, X (Investment k.1 k.2) / capitalCost t k.1)).
  apply Qplus_comp; [|reflexivity].
  apply Qsum_ext. intros k _. rewrite eval_lscale, eval_of_var.
  unfold Qdiv. ring.
Qed.

Lemma eval_renewable_production_lhs (t : Tables) (X : Var → Q) :
  eval X (lhs (Renewable_Production_constraint t))
  == Qsum (λ r, Qsum (λ y, X (Investment r y) / capitalCost t r
                           * capacityFactor r * 8760) years)
          renewable_sources
     + X Slack_Renewable_Production.
Proof.
  cbn [lhs Renewable_Production_constraint].
  rewrite eval_ladd, eval_of_var, eval_quicksum_map.
  rewrite <- (Qsum_prod (λ k, X (Investment k.1 k.2) / capitalCost t k.1
                              * capacityFactor k.1 * 8760)).
  apply Qplus_comp; [|reflexivity].
  apply Qsum_ext. intros k _. rewrite !eval_lscale, eval_of_var.
  unfold Qdiv. ring.
Qed.

Lemma renewable_production_target_scaled (t : Tables) :
  renewable_production_target t * 1e6
  == Qsum (λ r, (targetCapacity t r - currentCapacity t r)
                * capacityFactor r * 8760) renewable_sources.
Proof.
  unfold renewable_production_target. rewrite pysum_map.
  rewrite Qmult_comm, <- Qsum_scale. apply Qsum_ext. intros r _. field.
  intros H. vm_compute in H. discriminate.
Qed.

(** X5.  When the construction returns, the model holds the two renewable
    constraints.  The capacity constraint holds exactly when the capacity
    bought over the renewable sources and the years (investment / capital
    cost) plus its slack reaches the sum of the renewable target
    capacities: the whole targets, not the gaps to the current capacities.
    The production constraint holds exactly when the energy of that
    capacity (times capacity factor times 8760) plus its slack reaches the
    energy of the gaps, (target - current) * capacity factor * 8760 summed
    over the renewable sources. *)
Theorem renewable_constraints_semantics
    (t : Tables) (m : Model) (tg : Targets) (X : Var → Q) :
  build t empty_model = (m, inr tg) →
  Renewable_Capacity_constraint t ∈ constrs m
  ∧ Renewable_Production_constraint t ∈ constrs m
  ∧ (holds X (Renewable_Capacity_constraint t) ↔
     Qsum (targetCapacity t) renewable_sources
     <= Qsum (λ r, Qsum (λ y, X (Investment r y) / capitalCost t r) years)
             renewable_sources
        + X Slack_Renewable_Capacity)
  ∧ (holds X (Renewable_Production_constraint t) ↔
     Qsum (λ r, (targetCapacity t r - currentCapacity t r)
                * capacityFactor r * 8760) renewable_sources
     <= Qsum (λ r, Qsum (λ y, X (Investment r y) / capitalCost t r
                              * capacityFactor r * 8760) years)
             renewable_sources
        + X Slack_Renewable_Production)
  ∧ capacity_target tg == Qsum (targetCapacity t) renewable_sources.
Proof.
  intros (_ & _ & _ & -> & ->)%build_inr_inv.
  assert (renewable_capacity_target t == Qsum (targetCapacity t) renewable_sources)
    as Hcap by apply pysum_map.
  split; [|split].
  - unfold full_model. cbn [constrs]. rewrite !elem_of_app, elem_of_cons. tauto.
  - unfold full_model. cbn [constrs].
    rewrite !elem_of_app, !elem_of_cons. tauto.
  - split; [|split; [|exact Hcap]]; rewrite holds_GE by reflexivity.
    + rewrite eval_renewable_capacity_lhs.
      cbn [rhs Renewable_Capacity_constraint]. by rewrite eval_of_const, Hcap.
    + rewrite eval_renewable_production_lhs.
      cbn [rhs Renewable_Production_constraint].
      by rewrite eval_of_const, renewable_production_target_scaled.
Qed.

Lemma renewable_constraints_semantics_witness :
  build balanced_tables empty_model
  = (full_model balanced_tables, inr (full_targets balanced_tables))
  ∧ Renewable_Capacity_constraint balanced_tables
      ∈ constrs (full_model balanced_tables).
Proof.
  split; [exact balanced_tables_build|].
  apply (renewable_constraints_semantics balanced_tables _ _ solar_only
           balanced_tables_build).
Defined.

(** ** The totals of the report *)







(** ** The size of the model *)

(** X7.  When the construction returns, with n filtered sources the model
    has 7 n investment variables and n + 17 slack variables, 8 n + 17
    variables in all, and n + 17 constraints: n target constraints, 14
    budget constraints, two renewable constraints and the emissions
    constraint. *)
Theorem model_size (t : Tables) (m : Model) (tg : Targets) :
  build t empty_model = (m, inr tg) →
  length (vars m) = (8 * length (filtered_sources t) + 17)%nat
  ∧ length (constrs m) = (length (filtered_sources t) + 17)%nat
  ∧ length (target_constraints t) = length (filtered_sources t)
  ∧ length (budget_constraints t) = 14%nat.
Proof.
  intros (_ & _ & _ & -> & ->)%build_inr_inv.
  assert (length (budget_constraints t) = 14%nat) as Hb by reflexivity.
  assert (length (target_constraints t) = length (filtered_sources t)) as Ht
    by apply length_map.
  unfold full_model, all_vars, investment_keys. cbn [vars constrs].
  rewrite !length_app, !length_map, length_prod, Hb, Ht.
  change (length years) with 7%nat. simpl length. lia.
Qed.

Lemma model_size_witness :
  build coal_tables empty_model
  = (full_model coal_tables, inr (full_targets coal_tables))
  ∧ length (vars (full_model coal_tables)) = 57%nat
  ∧ length (constrs (full_model coal_tables)) = 22%nat.
Proof.
  split; [exact coal_tables_build|].
  destruct (model_size coal_tables _ _ coal_tables_build) as (Hv & Hc & _).
  split; [exact Hv|exact Hc].
Defined.

(** ** The program is feasible and bounded *)

Lemma Qpos_nonneg (q : Q) : 0 <= Qpos q.
Proof.
  unfold Qpos. destruct (Qle_bool 0 q) eqn:E; [by apply Qle_bool_iff|lra].
Qed.

Lemma Qpos_ge (q : Q) : q <= Qpos q.
Proof.
  unfold Qpos. destruct (Qle_bool 0 q) eqn:E; [lra|].
  apply Qlt_le_weak, Qnot_le_lt. intros H%Qle_bool_iff. congruence.
Qed.

Lemma min_annual_budget_pos : 0 < min_annual_budget.
Proof. reflexivity. Qed.

Lemma max_annual_budget_pos : 0 < max_annual_budget.
Proof. reflexivity. Qed.

Lemma eval_investments_only (X : Var → Q) (e : LinExpr) :
  investments_only e → (∀ s y, X (Investment s y) == 0) → eval X e == 0.
Proof.
  intros [Hc Ht] HX. unfold eval. rewrite Hc.
  induction Ht as [|kv l (s & y & Hkv) _ IH]; simpl; [lra|].
  rewrite Hkv, HX. lra.
Qed.

Lemma investments_only_quicksum_map {A} (f : A → LinExpr) (l : list A) :
  (∀ x, investments_only (f x)) → investments_only (quicksum (map f l)).
Proof.
  intros H. split.
  - apply const_quicksum_zero, Forall_forall.
    intros e (x & -> & _)%list_elem_of_fmap. apply H.
  - apply Forall_terms_quicksum_map. intros x _. apply H.
Qed.

Lemma investments_only_of_var (s : string) (y : Z) :
  investments_only (of_var (Investment s y)).
Proof. split; [reflexivity|]. repeat constructor. eauto. Qed.

Lemma investments_only_lscale (c : Q) (e : LinExpr) :
  investments_only e → investments_only (lscale c e).
Proof.
  intros [Hc Ht]. split.
  - simpl. rewrite Hc. lra.
  - simpl. apply Forall_fmap. eapply Forall_impl; [exact Ht|]. by intros [k v].
Qed.

Lemma investments_only_sum_source (t : Tables) (s : string) :
  investments_only (investment_sum_source t s).
Proof.
  apply investments_only_quicksum_map. intros k. apply investments_only_of_var.
Qed.

Lemma investments_only_sum_year (t : Tables) (y : Z) :
  investments_only (investment_sum_year t y).
Proof.
  apply investments_only_quicksum_map. intros k. apply investments_only_of_var.
Qed.

Lemma all_slack_nonneg (t : Tables) (v : Var) : 0 <= all_slack t v.
Proof.
  destruct v; simpl; try apply Qpos_nonneg; try lra.
  apply Qlt_le_weak, min_annual_budget_pos.
Qed.

Lemma all_slack_feasible (t : Tables) : feasible (full_model t) (all_slack t).
Proof.
  assert (∀ s y, all_slack t (Investment s y) == 0) as H0 by reflexivity.
  split; [apply Forall_forall; intros v _; apply all_slack_nonneg|].
  unfold full_model. cbn [constrs]. rewrite !Forall_app. repeat split.
  - apply Forall_forall. intros c (s & -> & _)%list_elem_of_fmap.
    rewrite holds_GE by reflexivity. cbn [lhs rhs Target_constraint].
    rewrite eval_ladd, eval_of_const, eval_of_var,
      (eval_investments_only _ _ (investments_only_sum_source t s) H0).
    cbn [all_slack]. pose proof (Qpos_ge ((targetCapacity t s - currentCapacity t s)
                                          * capitalCost t s)). lra.
  - apply Forall_forall. intros c Hc.
    apply list_elem_of_In, in_flat_map in Hc as (y & _ & [<-|[<-|[]]]).
    + rewrite holds_GE by reflexivity. cbn [lhs rhs Min_Budget_constraint].
      rewrite eval_ladd, eval_of_const, eval_of_var,
        (eval_investments_only _ _ (investments_only_sum_year t y) H0).
      cbn [all_slack]. lra.
    + rewrite holds_LE by reflexivity. cbn [lhs rhs Max_Budget_constraint].
      rewrite eval_ladd, eval_of_const, eval_of_var,
        (eval_investments_only _ _ (investments_only_sum_year t y) H0).
      cbn [all_slack]. pose proof max_annual_budget_pos. lra.
  - repeat constructor.
    + rewrite holds_GE by reflexivity.
      cbn [lhs rhs Renewable_Capacity_constraint].
      rewrite eval_ladd, eval_of_const, eval_of_var, eval_investments_only;
        [|apply investments_only_quicksum_map; intros k;
          apply investments_only_lscale, investments_only_of_var|exact H0].
      cbn [all_slack]. pose proof (Qpos_ge (renewable_capacity_target t)). lra.
    + rewrite holds_GE by reflexivity.
      cbn [lhs rhs Renewable_Production_constraint].
      rewrite eval_ladd, eval_of_const, eval_of_var, eval_investments_only;
        [|apply investments_only_quicksum_map; intros k;
          do 3 apply investments_only_lscale; apply investments_only_of_var
         |exact H0].
      cbn [all_slack].
      pose proof (Qpos_ge (renewable_production_target t * 1e6)). lra.
  - repeat constructor. rewrite holds_LE by reflexivity.
    cbn [lhs rhs Emissions_constraint].
    rewrite eval_ladd, eval_of_const, eval_of_var, eval_investments_only;
      [|apply investments_only_quicksum_map; intros k;
        do 2 apply investments_only_lscale; apply investments_only_of_var
       |exact H0].
    cbn [all_slack]. pose proof (Qpos_ge (- emissions_target t)). lra.
Qed.

(** X8.  The slack variables keep the program feasible: when the
    construction returns, the assignment that invests nothing and gives
    every slack variable what its constraint lacks satisfies every bound
    and every constraint of the model, whatever the tables say. *)
Theorem program_is_feasible (t : Tables) (m : Model) (tg : Targets) :
  build t empty_model = (m, inr tg) →
  feasible m (all_slack t) ∧ feasibleb m (all_slack t) = true.
Proof.
  intros (_ & _ & _ & -> & ->)%build_inr_inv.
  split; [|apply feasibleb_spec]; apply all_slack_feasible.
Qed.

Lemma program_is_feasible_witness :
  build coal_tables empty_model
  = (full_model coal_tables, inr (full_targets coal_tables))
  ∧ feasible (full_model coal_tables) (all_slack coal_tables).
Proof.
  split; [exact coal_tables_build|].
  apply (program_is_feasible coal_tables _ _ coal_tables_build).
Defined.


(** ** Which renewable source the [KeyError] names *)

Lemma list_find_split {A} (P : A → Prop) `{∀ x, Decision (P x)} (l : list A)
    (i : nat) (x : A) :
  list_find P l = Some (i, x) →
  ∃ l1 l2, l = l1 ++ x :: l2 ∧ Forall (λ y, ¬ P y) l1 ∧ P x.
Proof.
  revert i. induction l as [|y l IH]; intros i; [done|]. simpl.
  destruct (decide (P y)) as [Hy|Hy].
  - intros [= <- <-]. exists [], l. by repeat split.
  - destruct (list_find P l) as [[j z]|] eqn:E; [|done]. simpl.
    intros [= <- <-]. destruct (IH j eq_refl) as (l1 & l2 & -> & Hl1 & Hx).
    exists (y :: l1), l2. split; [done|]. split; [by constructor|done].
Qed.

Lemma first_missing_None (t : Tables) :
  first_missing t = None ↔ renewables_present t.
Proof.
  unfold first_missing, renewables_present.
  destruct (list_find (λ r, target_capacity t !! r = None) renewable_sources)
    as [[i r]|] eqn:E1.
  - split; [done|]. intros Hp.
    apply list_find_split in E1 as (l1 & l2 & Hl & _ & Hr).
    destruct (Hp r) as [[v Hv] _]; [rewrite Hl; apply elem_of_app; right; left|congruence].
  - apply list_find_None in E1. rewrite Forall_forall in E1.
    destruct (list_find (λ r, r ∉ sources t) renewable_sources)
      as [[i r]|] eqn:E2; simpl.
    + split; [done|]. intros Hp.
      apply list_find_split in E2 as (l1 & l2 & Hl & _ & Hr).
      destruct (Hp r) as [_ Hs]; [rewrite Hl; apply elem_of_app; right; left|done].
    + apply list_find_None in E2. rewrite Forall_forall in E2.
      split; [intros _|done]. intros r Hr. split.
      * specialize (E1 r Hr). simpl in E1.
        by destruct (target_capacity t !! r); [eexists|].
      * specialize (E2 r Hr). simpl in E2. by apply dec_stable in E2.
Qed.

Lemma first_missing_raises (t : Tables) (r : string) :
  first_missing t = Some r →
  r ∈ renewable_sources
  ∧ (total_renewable_capacity_target t = inl (KeyError (KStr r))
     ∨ ∃ c, total_renewable_capacity_target t = inr c
            ∧ total_renewable_production_target t = inl (KeyError (KStr r))).
Proof.
  unfold first_missing.
  destruct (list_find (λ r, target_capacity t !! r = None) renewable_sources)
    as [[i r']|] eqn:E1.
  - intros [= <-]. apply list_find_split in E1 as (l1 & l2 & Hl & Hl1 & Hr).
    simpl. split; [rewrite Hl; apply elem_of_app; right; left|]. left.
    unfold total_renewable_capacity_target. rewrite Hl.
    rewrite (mapM_inl _ l1 l2 r' (KeyError (KStr r'))); [done| |].
    + rewrite Forall_forall in Hl1. intros y Hy. specialize (Hl1 y Hy).
      simpl in Hl1. destruct (target_capacity t !! y) as [v|] eqn:E; [|done].
      exists v. by apply getitem_Some.
    + by apply getitem_None.
  - apply list_find_None in E1. rewrite Forall_forall in E1.
    assert (∀ y, y ∈ renewable_sources → is_Some (target_capacity t !! y)) as Ht.
    { intros y Hy. specialize (E1 y Hy). simpl in E1.
      by destruct (target_capacity t !! y); [eexists|]. }
    destruct (list_find (λ r, r ∉ sources t) renewable_sources)
      as [[i r']|] eqn:E2; [|done]. simpl. intros [= <-].
    apply list_find_split in E2 as (l1 & l2 & Hl & Hl1 & Hr).
    assert (r' ∈ renewable_sources) as Hin by (rewrite Hl; apply elem_of_app; right; left).
    split; [done|]. right.
    exists (pysum (map (targetCapacity t) renewable_sources)). split.
    + unfold total_renewable_capacity_target.
      rewrite (mapM_inr_ext _ (targetCapacity t)); [done|].
      intros y Hy. by apply getitem_target_capacity, Ht.
    + unfold total_renewable_production_target. rewrite Hl.
      rewrite (mapM_inl _ l1 l2 r' (KeyError (KStr r'))); [done| |].
      * rewrite Forall_forall in Hl1. intros y Hy.
        assert (y ∈ renewable_sources) as Hy'
          by (rewrite Hl; apply elem_of_app; by left).
        specialize (Hl1 y Hy). simpl in Hl1. apply dec_stable in Hl1.
        rewrite getitem_target_capacity, getitem_current_capacity,
          (getitem_capacity_factors t) by auto.
        eauto.
      * rewrite getitem_target_capacity by auto. rewrite result_bind_inr.
        rewrite (getitem_None (current_capacity t)); [done|].
        apply eq_None_not_Some. by rewrite current_capacity_is_Some.
Qed.

(** X9.  On tables that repeat no filtered source, a run with a renewable
    source missing ends in a [KeyError] that names one particular source:
    the first of Solar, Wind, Hydropower, Biomass without a target
    capacity, and if all four have one, the first without a row in the cost
    table.  There is such a source exactly when the renewable sources are
    not all present. *)
Theorem KeyError_names_first_missing_renewable
    (optimize : Model → Status * (Var → Q)) (t : Tables) :
  (first_missing t = None ↔ renewables_present t)
  ∧ (∀ r, NoDup (filtered_sources t) → first_missing t = Some r →
          r ∈ renewable_sources
          ∧ build t empty_model
            = (model_after_budgets t, inl (KeyError (KStr r)))
          ∧ main optimize t
            = Uncaught (model_after_budgets t) (KeyError (KStr r))).
Proof.
  split; [apply first_missing_None|]. intros r Hnd Hr.
  destruct (first_missing_raises t r Hr) as [Hin He]. split; [done|].
  assert (build t empty_model = (model_after_budgets t, inl (KeyError (KStr r))))
    as Hb.
  { rewrite build_prefix by done.
    unfold add_renewable_constraints, mbind, Build_bind, py.
    by destruct He as [->|(c & -> & ->)]. }
  split; [done|]. unfold main. by rewrite Hb.
Qed.

(** X10.  Empty tables.  Without any goal row the run ends in
    [KeyError: 'Solar'], whatever the cost table holds; with goals for the
    four renewable sources but an empty cost table it ends the same way,
    this time from the current-capacity subscript.  In both cases no
    source is filtered and the model holds the 14 budget constraints
    only. *)
Theorem empty_tables_raise_KeyError_Solar
    (optimize : Model → Status * (Var → Q)) (t : Tables) :
  (goals_data t = [] ∨ (emissions_data t = [] ∧ ∀ r, r ∈ renewable_sources →
                                               is_Some (target_capacity t !! r))) →
  filtered_sources t = []
  ∧ main optimize t = Uncaught (model_after_budgets t) (KeyError (KStr "Solar"))
  ∧ constrs (model_after_budgets t) = budget_constraints t
  ∧ length (budget_constraints t) = 14%nat.
Proof.
  intros Hempty.
  assert (filtered_sources t = []) as Hf.
  { unfold filtered_sources. destruct Hempty as [Hg|[He _]].
    - assert (target_capacity t = ∅) as ->
        by (unfold target_capacity; by rewrite Hg).
      induction (sources t) as [|s l IH]; [done|].
      rewrite filter_cons_False; [done|]. rewrite lookup_empty. by intros [? ?].
    - unfold sources. by rewrite He. }
  assert (first_missing t = Some "Solar") as Hfirst.
  { unfold first_missing. destruct Hempty as [Hg|[He Ht]].
    - assert (target_capacity t = ∅) as ->
        by (unfold target_capacity; by rewrite Hg).
      reflexivity.
    - destruct (list_find (λ r, target_capacity t !! r = None) renewable_sources)
        as [[i r]|] eqn:E1.
      + apply list_find_split in E1 as (l1 & l2 & Hl & _ & Hr).
        destruct (Ht r) as [v Hv]; [rewrite Hl; apply elem_of_app; right; left|congruence].
      + unfold sources. rewrite He. reflexivity. }
  split; [done|].
  destruct (first_missing_raises t "Solar" Hfirst) as [_ He].
  assert (build t empty_model
          = (model_after_budgets t, inl (KeyError (KStr "Solar")))) as Hb.
  { rewrite build_prefix by (rewrite Hf; apply NoDup_nil_2).
    unfold add_renewable_constraints, mbind, Build_bind, py.
    by destruct He as [->|(c & -> & ->)]. }
  split; [unfold main; by rewrite Hb|].
  split; [|reflexivity].
  unfold model_after_budgets, target_constraints. cbn [constrs].
  by rewrite Hf.
Qed.

Lemma KeyError_names_first_missing_renewable_witness :
  NoDup (filtered_sources no_biomass_tables)
  ∧ first_missing no_biomass_tables = Some "Biomass"
  ∧ build no_biomass_tables empty_model
    = (model_after_budgets no_biomass_tables, inl (KeyError (KStr "Biomass"))).
Proof.
  assert (first_missing no_biomass_tables = Some "Biomass") as H
    by (vm_compute; reflexivity).
  split; [apply no_biomass_tables_NoDup|]. split; [exact H|].
  apply (proj2 (KeyError_names_first_missing_renewable
                  (λ _, (OPTIMAL, λ _, 0)) no_biomass_tables) "Biomass"
           no_biomass_tables_NoDup H).
Defined.

Lemma empty_tables_raise_KeyError_Solar_witness :
  (goals_data (with_goals balanced_tables []) = []
   ∨ (emissions_data (with_goals balanced_tables []) = []
      ∧ ∀ r, r ∈ renewable_sources →
             is_Some (target_capacity (with_goals balanced_tables []) !! r)))
  ∧ main (λ _, (OPTIMAL, λ _, 0)) (with_goals balanced_tables [])
    = Uncaught (model_after_budgets (with_goals balanced_tables []))
        (KeyError (KStr "Solar")).
Proof.
  assert (goals_data (with_goals balanced_tables []) = []
          ∨ (emissions_data (with_goals balanced_tables []) = []
             ∧ ∀ r, r ∈ renewable_sources →
                    is_Some (target_capacity (with_goals balanced_tables []) !! r)))
    as H by (left; reflexivity).
  split; [exact H|].
  apply (empty_tables_raise_KeyError_Solar (λ _, (OPTIMAL, λ _, 0)) _ H).
Defined.


(** ** What feasibility gives *)

Section Feasible.
Context (t : Tables) (X : Var → Q).
Hypothesis Hfeas : feasible (full_model t) X.

Lemma feasible_var (v : Var) : v ∈ all_vars t → 0 <= X v.
Proof.
  destruct Hfeas as [Hv _]. cbn [vars full_model] in Hv.
  rewrite Forall_forall in Hv. apply Hv.
Qed.

Lemma feasible_investment (s : string) (y : Z) :
  s ∈ filtered_sources t → y ∈ years → 0 <= X (Investment s y).
Proof.
  intros Hs Hy. apply feasible_var. unfold all_vars. apply elem_of_app. left.
  apply (list_elem_of_fmap_2 (λ k, Investment k.1 k.2) _ (s, y)).
  by apply elem_of_investment_keys.
Qed.

Lemma feasible_slack_target (s : string) :
  s ∈ filtered_sources t → 0 <= X (Slack_Target s).
Proof.
  intros Hs. apply feasible_var. unfold all_vars.
  rewrite !elem_of_app. right. left. by apply list_elem_of_fmap_2.
Qed.

Lemma feasible_slack_min_budget (y : Z) : y ∈ years → 0 <= X (Slack_Min_Budget y).
Proof.
  intros Hy. apply feasible_var. unfold all_vars.
  rewrite !elem_of_app. right. right. left. by apply list_elem_of_fmap_2.
Qed.

Lemma feasible_slack_max_budget (y : Z) : y ∈ years → 0 <= X (Slack_Max_Budget y).
Proof.
  intros Hy. apply feasible_var. unfold all_vars.
  rewrite !elem_of_app. do 3 right. left. by apply list_elem_of_fmap_2.
Qed.

Lemma feasible_single_slacks :
  0 <= X Slack_Renewable_Capacity ∧ 0 <= X Slack_Renewable_Production
  ∧ 0 <= X Slack_Emissions.
Proof.
  repeat split; apply feasible_var; unfold all_vars;
    rewrite !elem_of_app, !elem_of_cons; tauto.
Qed.

Lemma feasible_holds (c : Constr) : c ∈ constrs (full_model t) → holds X c.
Proof. destruct Hfeas as [_ Hc]. rewrite Forall_forall in Hc. apply Hc. Qed.

Lemma feasible_min_budget (y : Z) :
  y ∈ years →
  min_annual_budget
  <= Qsum (λ s, X (Investment s y)) (filtered_sources t) + X (Slack_Min_Budget y).
Proof.
  intros Hy. destruct (elem_of_budget_constraints t y Hy) as [Hmin _].
  assert (holds X (Min_Budget_constraint t y)) as H.
  { apply feasible_holds. unfold full_model. cbn [constrs].
    rewrite !elem_of_app. tauto. }
  revert H. rewrite holds_GE by reflexivity.
  cbn [lhs rhs Min_Budget_constraint].
  by rewrite eval_ladd, eval_of_const, eval_of_var, eval_investment_sum_year.
Qed.



End Feasible.

(** ** The cost of any plan *)

Lemma Qsum_const_years (c : Q) : Qsum (λ _ : Z, c) years == 7 * c.
Proof. rewrite years_explicit. simpl. lra. Qed.

(** X11.  The program is bounded below: when the construction returns,
    every feasible assignment costs at least seven times the minimum annual
    budget, which is 0.8 times the total investment budget, 35.2 * 10^12.
    So the solver can report neither an unbounded program nor a cheaper
    plan. *)
Theorem every_plan_costs_the_minimum_budgets
    (t : Tables) (m : Model) (tg : Targets) (X : Var → Q) :
  build t empty_model = (m, inr tg) → feasible m X →
  7 * min_annual_budget <= eval X (objective m)
  ∧ 7 * min_annual_budget == 0.8 * total_investment_budget
  ∧ 7 * min_annual_budget == 352 * 10^11.
Proof.
  intros (_ & _ & _ & -> & ->)%build_inr_inv Hfeas.
  split; [|split; reflexivity].
  cbn [objective full_model]. rewrite eval_objective_function, Qsum_swap.
  assert (Qsum (λ _ : Z, min_annual_budget) years
          <= Qsum (λ y, Qsum (λ s, X (Investment s y)) (filtered_sources t)
                        + X (Slack_Min_Budget y)) years) as Hsum.
  { apply Qsum_le. intros y Hy. by apply feasible_min_budget. }
  rewrite Qsum_const_years, Qsum_plus in Hsum.
  assert (0 <= Qsum (λ s, X (Slack_Target s)) (filtered_sources t)) as H1.
  { apply Qsum_nonneg. intros s Hs. by apply (feasible_slack_target t). }
  assert (0 <= Qsum (λ y, X (Slack_Min_Budget y)) years) as H2.
  { apply Qsum_nonneg. intros y Hy. by apply (feasible_slack_min_budget t). }
  assert (0 <= Qsum (λ y, X (Slack_Max_Budget y)) years) as H3.
  { apply Qsum_nonneg. intros y Hy. by apply (feasible_slack_max_budget t). }
  destruct (feasible_single_slacks t X Hfeas) as (H4 & H5 & H6).
  unfold penalty_factor. lra.
Qed.

Lemma every_plan_costs_the_minimum_budgets_witness :
  build coal_tables empty_model
  = (full_model coal_tables, inr (full_targets coal_tables))
  ∧ feasible (full_model coal_tables) coal_then_solar
  ∧ 7 * min_annual_budget
    <= eval coal_then_solar (objective (full_model coal_tables)).
Proof.
  split; [exact coal_tables_build|].
  split; [exact (proj1 coal_tables_optimum)|].
  exact (proj1 (every_plan_costs_the_minimum_budgets coal_tables _ _
                  coal_then_solar coal_tables_build (proj1 coal_tables_optimum))).
Defined.

(** ** The renewable lines of the report *)



Section Renewable_lines.
Context (t : Tables) (tg : Targets) (X : Var → Q).





End Renewable_lines.




(** ** How a run ends *)

(** X13.  A run ends in exactly one of three ways.  It ends in an uncaught
    exception exactly when the construction raises it (the report never
    raises after a construction that returned); it logs the solver status
    without any report exactly when the construction returns and the solver
    answers a status other than OPTIMAL on the full model; and it prints
    the report of the solved values exactly when the construction returns
    and the solver answers OPTIMAL. *)
Theorem run_outcomes (optimize : Model → Status * (Var → Q)) (t : Tables) :
  (∀ m e, main optimize t = Uncaught m e ↔ build t empty_model = (m, inl e))
  ∧ (∀ code, main optimize t = Unsolved code ↔
             build t empty_model = (full_model t, inr (full_targets t))
             ∧ ∃ X, optimize (full_model t) = (NOT_OPTIMAL code, X))
  ∧ (∀ lines, main optimize t = Printed lines ↔
              build t empty_model = (full_model t, inr (full_targets t))
              ∧ ∃ X, optimize (full_model t) = (OPTIMAL, X)
                     ∧ lines = report_lines t (full_targets t) X).
Proof.
  unfold main. destruct (build t empty_model) as [m [e|tg]] eqn:Hb.
  - split; [|split].
    + intros m' e'. split; [by intros [= <- <-]|by intros [= <- <-]].
    + intros code. split; [done|]. by intros [? _].
    + intros lines. split; [done|]. by intros [? _].
  - apply build_inr_inv in Hb as (Hnd & Hp & Hnz & -> & ->).
    destruct (optimize (full_model t)) as [[|code] X] eqn:Ho.
    + rewrite report_run by done. split; [|split].
      * intros m e. split; [done|]. done.
      * intros code. split; [done|]. by intros [_ [X' ?]].
      * intros lines. split.
        -- intros [= <-]. split; [done|]. by exists X.
        -- intros [_ (X' & [= <-] & ->)]. done.
    + split; [|split].
      * intros m e. split; done.
      * intros code'. split.
        -- intros [= <-]. split; [done|]. by exists X.
        -- by intros [_ (X' & [= <- <-])].
      * intros lines. split; [done|]. by intros [_ (X' & ? & _)].
Qed.
